(** * Hierarchical state machine engine (hsm.hpp): model and verification

    The development embeds the engine of [src/hsm/hsm.hpp] and proves the
    properties of its transition algorithm.

    Modelling conventions.
    - A [State] object is identified by the order in which it was
      constructed (a natural number); a pointer [State*] is an
      [option State], [nullptr] being [None].  The private field [parent]
      is fixed by the constructor and is read from the table [parents].
    - An [Action] object lives in the vector [StateMachine::tab]; a pointer
      [Action*] is an [option ActRef], an index into [tab].
    - The private field [State::queue] of all the states is the finite map
      [queue] of the machine record.
    - [while] loops take an iteration budget and answer [Fault OutOfFuel]
      when it is exhausted; a loop that exhausts every budget does not
      terminate in the source.
    - The [int] counters of [getLevel] and [getRoot] are integers of [Z]:
      they count the states of one branch of the tree, far below the
      range of [int].
    - [assert] aborts with [Fault AssertionFailed] unless [NDEBUG] is set.
    - A handler is a [std::function<void(const Message&)>]; its effect on
      the engine is the last target it passed to [StateMachine::transition],
      if any.  Each invocation is recorded in the trace. *)

From stdpp Require Import base numbers list option gmap.

Abbreviation State := nat (only parsing).
Abbreviation ActRef := nat (only parsing).

(** [enum Event : unsigned] *)
Module Event.
Definition ALL : N := 0.
Definition Stop : N := 1.
Definition Exit : N := 2.
Definition Entry : N := 3.
Definition Init : N := 4.
Definition User : N := 5.
End Event.

Inductive Failure : Type :=
| AssertionFailed
| NullDereference
| OutOfFuel.

Inductive result (A : Type) : Type :=
| Ret (a : A)
| Fault (e : Failure).
Arguments Ret {A} a.
Arguments Fault {A} e.

Section Engine.

(** Modelled from the spec: the type [Message] is declared in
    [hsmconfig.hpp], which is not part of the sources.  It carries an
    event identifier and a payload that the engine never inspects;
    [{message_, event}] builds a copy of [message_] with another event. *)
Context {Payload : Type}.

Record Message : Type := mkMessage {
  event : N;
  payload : Payload
}.

Definition withEvent (message_ : Message) (event_ : N) : Message :=
  {| event := event_; payload := payload message_ |}.

(** The default-constructed message [{}] passed by [start] and [message]. *)
Variable emptyMessage : Message.

(** [using Handler = std::function<void ( const Message& )>]: the target
    the handler hands to [StateMachine::transition( State& )], if it
    calls it. *)
Definition Handler : Type := Message → option State.

(** [using Variant = std::variant<State*, Handler>] *)
Inductive Variant : Type :=
| VState (state_ : State)
| VHandler (handler_ : Handler).

(** [struct Action] *)
Record Action : Type := mkAction {
  owner : State;
  aevent : N;
  action : Variant;
  next : option ActRef
}.

(** [struct StateMachine], together with the [queue] fields of the
    states it links its actions into. *)
Record StateMachine : Type := mkStateMachine {
  state : option State;
  target : option State;
  tab : list Action;
  queue : gmap nat nat
}.

Definition setState (sm : StateMachine) (s : option State) : StateMachine :=
  {| state := s; target := target sm; tab := tab sm; queue := queue sm |}.

Definition setTarget (sm : StateMachine) (t : option State) : StateMachine :=
  {| state := state sm; target := t; tab := tab sm; queue := queue sm |}.

(** One handler invocation: the state the event was resolved against,
    the action whose handler ran, and the message it received. *)
Inductive Obs : Type :=
| Fired (candidate : State) (binding : ActRef) (message_ : Message).

(** ** The state tree *)

Variable parents : list (option State).

(** [state_->parent] *)
Definition parent (s : State) : option State :=
  match parents !! s with
  | Some p => p
  | None => None
  end.

(** [State::getLevel] *)
Fixpoint getLevel_loop (fuel : nat) (state_ : option State) (level_ : Z)
  : result Z :=
  match state_ with
  | None => Ret level_
  | Some s =>
      match fuel with
      | O => Fault OutOfFuel
      | S fuel' => getLevel_loop fuel' (parent s) (level_ + 1)
      end
  end.

Definition getLevel (fuel : nat) (state_ : option State) : result Z :=
  getLevel_loop fuel state_ 0.

(** [while (diff_-- > 0) state_ = state_->parent;] *)
Fixpoint getRoot_first (fuel : nat) (diff_ : Z) (state_ : option State)
  : result (Z * option State) :=
  if (0 <? diff_)%Z then
    match fuel with
    | O => Fault OutOfFuel
    | S fuel' =>
        match state_ with
        | None => Fault NullDereference
        | Some s => getRoot_first fuel' (diff_ - 1) (parent s)
        end
    end
  else Ret ((diff_ - 1)%Z, state_).

(** [while (++diff_ < 0) other_ = other_->parent;] *)
Fixpoint getRoot_second (fuel : nat) (diff_ : Z) (other_ : option State)
  : result (Z * option State) :=
  if (diff_ + 1 <? 0)%Z then
    match fuel with
    | O => Fault OutOfFuel
    | S fuel' =>
        match other_ with
        | None => Fault NullDereference
        | Some s => getRoot_second fuel' (diff_ + 1) (parent s)
        end
    end
  else Ret ((diff_ + 1)%Z, other_).

(** [while (state_ != other_)
      { state_ = state_->parent; other_ = other_->parent; }] *)
Fixpoint getRoot_both (fuel : nat) (state_ other_ : option State)
  : result (option State) :=
  if decide (state_ = other_) then Ret state_
  else
    match fuel with
    | O => Fault OutOfFuel
    | S fuel' =>
        match state_, other_ with
        | Some s, Some o => getRoot_both fuel' (parent s) (parent o)
        | _, _ => Fault NullDereference
        end
    end.

(** [State::getRoot] *)
Definition getRoot (fuel : nat) (state_ other_ : option State)
  : result (option State) :=
  match getLevel fuel state_ with
  | Fault e => Fault e
  | Ret l1 =>
      match getLevel fuel other_ with
      | Fault e => Fault e
      | Ret l2 =>
          match getRoot_first fuel (l1 - l2) state_ with
          | Fault e => Fault e
          | Ret (diff_, state_') =>
              match getRoot_second fuel diff_ other_ with
              | Fault e => Fault e
              | Ret (_, other_') => getRoot_both fuel state_' other_'
              end
          end
      end
  end.

(** [State::getPrev] *)
Definition getPrev (state_ : option State) : option State :=
  match state_ with
  | Some s => parent s
  | None => None
  end.

(** [State::getNext] *)
Fixpoint getNext (fuel : nat) (state_ sign_ : option State)
  : result (option State) :=
  match sign_ with
  | None => Ret None
  | Some s =>
      if decide (state_ = parent s) then Ret sign_
      else
        match fuel with
        | O => Fault OutOfFuel
        | S fuel' => getNext fuel' state_ (parent s)
        end
  end.

(** ** The action table *)

(** [Action::getAction]: the loop over the [next] links. *)
Fixpoint getAction_loop (fuel : nat) (tab_ : list Action)
    (action_ : option ActRef) (event_ : N) : result (option ActRef) :=
  match action_ with
  | None => Ret None
  | Some i =>
      match tab_ !! i with
      | None => Fault NullDereference
      | Some a =>
          if decide (aevent a ≠ event_ ∧ aevent a ≠ Event.ALL) then
            match fuel with
            | O => Fault OutOfFuel
            | S fuel' => getAction_loop fuel' tab_ (next a) event_
            end
          else Ret action_
      end
  end.

Definition getAction (fuel : nat) (sm : StateMachine)
    (state_ : option State) (event_ : N) : result (option ActRef) :=
  match state_ with
  | None => Ret None
  | Some s => getAction_loop fuel (tab sm) (queue sm !! s) event_
  end.

(** [Action::link], for the action stored at index [i] of [tab]. *)
Definition link (i : ActRef) (sm : StateMachine) : StateMachine :=
  match tab sm !! i with
  | None => sm
  | Some a =>
      match next a with
      | Some _ => sm
      | None =>
          {| state := state sm;
             target := target sm;
             tab := <[i := {| owner := owner a; aevent := aevent a;
                              action := action a;
                              next := queue sm !! owner a |}]> (tab sm);
             queue := <[owner a := i]> (queue sm) |}
      end
  end.

(** [for (auto& action_: StateMachine::tab) action_.link();] *)
Definition linkAll (sm : StateMachine) : StateMachine :=
  foldl (λ sm' i, link i sm') sm (seq 0 (length (tab sm))).

(** ** The engine monad: machine state, trace of handler calls, faults *)

Definition M (A : Type) : Type :=
  StateMachine → result (A * StateMachine * list Obs).

#[local] Instance M_ret : MRet M := λ A a sm, Ret (a, sm, []).

#[local] Instance M_bind : MBind M := λ A B k c sm,
  match c sm with
  | Fault e => Fault e
  | Ret (a, sm1, t1) =>
      match k a sm1 with
      | Fault e => Fault e
      | Ret (b, sm2, t2) => Ret (b, sm2, t1 ++ t2)
      end
  end.

Definition fault {A : Type} (e : Failure) : M A := λ _, Fault e.

Definition lift {A : Type} (r : result A) : M A := λ sm,
  match r with
  | Ret a => Ret (a, sm, [])
  | Fault e => Fault e
  end.

Definition get : M StateMachine := λ sm, Ret (sm, sm, []).

Definition put (sm' : StateMachine) : M unit := λ _, Ret (tt, sm', []).

Definition emit (o : Obs) : M unit := λ sm, Ret (tt, sm, [o]).

(** [assert] of <cassert>; [NDEBUG] compiles it away. *)
Variable NDEBUG : bool.

Definition assert (c : bool) : M unit :=
  if NDEBUG then mret tt
  else if c then mret tt else fault AssertionFailed.

(** [std::visit(Visitor{message_}, action_->action)] *)
Definition visit (state_ : State) (i : ActRef) (message_ : Message)
    (v : Variant) : M (option State) :=
  match v with
  | VState t => mret (Some t)
  | VHandler handler_ =>
      emit (Fired state_ i message_);;
      sm ← get;
      match handler_ message_ with
      | Some t => put (setTarget sm (Some t))
      | None => mret tt
      end;;
      mret None
  end.

(** [Action::callHandler] *)
Definition callHandler (fuel : nat) (state_ : option State)
    (message_ : Message) : M (option State) :=
  sm ← get;
  action_ ← lift (getAction fuel sm state_ (event message_));
  match action_ with
  | None => mret None
  | Some i =>
      match tab sm !! i, state_ with
      | Some a, Some s =>
          target_ ← visit s i message_ (action a);
          mret (match target_ with None => state_ | Some _ => target_ end)
      | _, _ => fault NullDereference
      end
  end.

(** The first half of [StateMachine::callAction], up to the second test
    [target_ == state_]: [None] when the function returns [false], else
    the value of [target_]. *)
Definition resolveTarget (fuel : nat) (state_ : option State)
    (message_ : Message) : M (option (option State)) :=
  sm ← get;
  put (setTarget sm state_);;
  target_ ← callHandler fuel state_ message_;
  match target_ with
  | None => mret None
  | Some _ =>
      if decide (target_ = state_) then
        sm' ← get; mret (Some (target sm'))
      else mret (Some target_)
  end.

(** [assert(message_.event >= Event::User || target_->parent == state_)] *)
Definition assertChild (message_ : Message) (target_ state_ : option State)
  : M unit :=
  if NDEBUG then mret tt
  else if (Event.User <=? event message_)%N then mret tt
  else
    match target_ with
    | None => fault NullDereference
    | Some t =>
        if decide (parent t = state_) then mret tt
        else fault AssertionFailed
    end.

(** [StateMachine::callAction], the recursive call to [transition] left
    open. *)
Definition callAction_with
    (transition_ : option State → Message → M unit)
    (fuel : nat) (state_ : option State) (message_ : Message) : M bool :=
  r ← resolveTarget fuel state_ message_;
  match r with
  | None => mret false
  | Some target_ =>
      if decide (target_ = state_) then mret true
      else
        assertChild message_ target_ state_;;
        transition_ target_ message_;;
        mret true
  end.

(** The first loop of [StateMachine::transition( State*, const Message& )] *)
Fixpoint exit_loop (n fuel : nat) (root_ : option State)
    (message_ : Message) : M unit :=
  sm ← get;
  if decide (state sm = root_) then mret tt
  else
    match n with
    | O => fault OutOfFuel
    | S n' =>
        callHandler fuel (state sm) (withEvent message_ Event.Exit);;
        sm' ← get;
        put (setState sm' (getPrev (state sm')));;
        exit_loop n' fuel root_ message_
    end.

(** The second loop of [StateMachine::transition( State*, const Message& )] *)
Fixpoint entry_loop (n fuel : nat) (next_ : option State)
    (message_ : Message) : M unit :=
  sm ← get;
  if decide (state sm = next_) then mret tt
  else
    match n with
    | O => fault OutOfFuel
    | S n' =>
        s ← lift (getNext fuel (state sm) next_);
        put (setState sm s);;
        callHandler fuel s (withEvent message_ Event.Entry);;
        entry_loop n' fuel next_ message_
    end.

(** [StateMachine::transition( State*, const Message& )] *)
Fixpoint transition (fuel : nat) (next_ : option State)
    (message_ : Message) : M unit :=
  match fuel with
  | O => fault OutOfFuel
  | S fuel' =>
      sm ← get;
      root_ ← lift (getRoot fuel' (state sm) next_);
      exit_loop fuel' fuel' root_ message_;;
      entry_loop fuel' fuel' next_ message_;;
      sm' ← get;
      callAction_with (transition fuel') fuel' (state sm')
        (withEvent message_ Event.Init);;
      mret tt
  end.

(** [StateMachine::callAction] *)
Definition callAction (fuel : nat) (state_ : option State)
    (message_ : Message) : M bool :=
  callAction_with (transition fuel) fuel state_ message_.

(** [StateMachine::eventHandler] *)
Fixpoint eventHandler_loop (n fuel : nat) (state_ : option State)
    (message_ : Message) : M unit :=
  match state_ with
  | None => mret tt
  | Some s =>
      match n with
      | O => fault OutOfFuel
      | S n' =>
          handled ← callAction fuel state_ message_;
          if handled : bool then mret tt
          else eventHandler_loop n' fuel (parent s) message_
      end
  end.

Definition eventHandler (fuel : nat) (message_ : Message) : M unit :=
  sm ← get;
  eventHandler_loop fuel fuel (state sm) message_.

(** [StateMachine::start] *)
Definition start (fuel : nat) (init_ : State) : M unit :=
  sm ← get;
  assert (bool_decide (state sm = None));;
  assert (bool_decide (state sm = parent init_));;
  if decide (state sm = None) then
    put (linkAll sm);;
    transition fuel (Some init_) emptyMessage
  else mret tt.

(** [StateMachine::message]; [{message_, this}] is [message_] with a
    reference to the machine, which the handlers of this model do not
    need. *)
Definition message (fuel : nat) (message_ : Message) : M unit :=
  sm ← get;
  assert (bool_decide (state sm ≠ None));;
  assert (bool_decide (event message_ = Event.Stop
                       ∨ (Event.User ≤ event message_)%N));;
  if (Event.User <=? event message_)%N then eventHandler fuel message_
  else if (event message_ =? Event.Stop)%N then
    transition fuel None emptyMessage
  else mret tt.

(** ** Construction and configuration *)

(** [Action( State& owner_, unsigned event_ )]: the action is the owner
    itself. *)
Definition Action_owner (owner_ : State) (event_ : N) : Action :=
  {| owner := owner_; aevent := event_; action := VState owner_;
     next := None |}.

(** [Action( State& owner_, unsigned event_, State& state_ )] *)
Definition Action_state (owner_ : State) (event_ : N) (state_ : State)
  : Action :=
  {| owner := owner_; aevent := event_; action := VState state_;
     next := None |}.

(** [Action( State& owner_, unsigned event_, Handler handler_ )] *)
Definition Action_handler (owner_ : State) (event_ : N)
    (handler_ : Handler) : Action :=
  {| owner := owner_; aevent := event_; action := VHandler handler_;
     next := None |}.

(** [StateMachine()] and [StateMachine( const std::vector<Action>& tab_ )],
    beside states that were just constructed, whose queues are empty. *)
Definition StateMachine_new (tab_ : list Action) : StateMachine :=
  {| state := None; target := None; tab := tab_; queue := ∅ |}.

(** [StateMachine::add( const std::vector<Action>& tab_ )] *)
Definition add (tab_ : list Action) (sm : StateMachine) : StateMachine :=
  {| state := state sm; target := target sm; tab := tab sm ++ tab_;
     queue := queue sm |}.

(** [StateMachine::add( State& owner_, unsigned event_, T&& action_ )] *)
Definition add_action (owner_ : State) (event_ : N) (action_ : Variant)
    (sm : StateMachine) : StateMachine :=
  {| state := state sm; target := target sm;
     tab := tab sm ++ [{| owner := owner_; aevent := event_;
                          action := action_; next := None |}];
     queue := queue sm |}.

(** [StateMachine::transition( State& target_ )] *)
Definition transition_target (target_ : State) : M unit := λ sm,
  Ret (tt, setTarget sm (Some target_), []).

End Engine.

Arguments Message Payload : clear implicits.
Arguments Action Payload : clear implicits.
Arguments StateMachine Payload : clear implicits.
Arguments Obs Payload : clear implicits.
Arguments M Payload A : clear implicits.

(** ** Notions used to state the properties *)

Section Specification.

Context {Payload : Type}.
Variable parents : list (option State).

(** States are constructed after their parent ([State( State& parent_ )]
    takes the parent as an existing object): every entry of the parent
    table points to an earlier state.  This is what makes the parent
    links a forest. *)
Fixpoint tree_ok_from (i : nat) (ps : list (option State)) : bool :=
  match ps with
  | [] => true
  | p :: ps' =>
      match p with
      | Some q => bool_decide (q < i)
      | None => true
      end && tree_ok_from (S i) ps'
  end.

Definition tree_ok : bool := tree_ok_from 0 parents.

(** [chain x l]: [l] lists [x] and its ancestors, leaf first. *)
Inductive chain : option State → list State → Prop :=
| chain_nil : chain None []
| chain_cons s l : chain (parent parents s) l → chain (Some s) (s :: l).

(** The same list, computed. *)
Fixpoint path_from (n : nat) (x : option State) : list State :=
  match n, x with
  | S n', Some s => s :: path_from n' (parent parents s)
  | _, _ => []
  end.

Definition path (x : option State) : list State :=
  path_from (S (length parents)) x.

(** [ancestor c x]: the state [c] is [x] or lies above it. *)
Inductive ancestor (c : State) : option State → Prop :=
| ancestor_self : ancestor c (Some c)
| ancestor_up s : ancestor c (parent parents s) → ancestor c (Some s).

(** [queue_list tab_ h l]: following [next] from [h] visits the actions
    [l] and reaches [nullptr]. *)
Inductive queue_list (tab_ : list (Action Payload))
  : option ActRef → list ActRef → Prop :=
| queue_list_nil : queue_list tab_ None []
| queue_list_cons i a l :
    tab_ !! i = Some a →
    queue_list tab_ (next a) l →
    queue_list tab_ (Some i) (i :: l).

(** The action at [i] is bound to [event_] or to [ALL]. *)
Definition matches (tab_ : list (Action Payload)) (event_ : N)
    (i : ActRef) : bool :=
  match tab_ !! i with
  | Some a => bool_decide (aevent a = event_ ∨ aevent a = Event.ALL)
  | None => false
  end.

(** The actions linked after [h], computed. *)
Fixpoint links_from (n : nat) (tab_ : list (Action Payload))
    (h : option ActRef) : list ActRef :=
  match n, h with
  | S n', Some i =>
      i :: links_from n' tab_
             (match tab_ !! i with Some a => next a | None => None end)
  | _, _ => []
  end.

(** The action list of a state, head first. *)
Definition bindings (sm : StateMachine Payload) (s : State)
  : list ActRef :=
  links_from (length (tab sm)) (tab sm) (queue sm !! s).

(** The binding that resolves [event_] at [s]: the first one of the
    list bound to the event or to [ALL]. *)
Definition lookup (sm : StateMachine Payload) (s : State) (event_ : N)
  : option ActRef :=
  find (matches (tab sm) event_) (bindings sm s).


(** The links are those of lists built by prepending: every [next]
    points to an earlier action and every queue head is in the table. *)
Fixpoint links_ok_from (i : nat) (tab_ : list (Action Payload)) : bool :=
  match tab_ with
  | [] => true
  | a :: tab' =>
      match next a with
      | Some j => bool_decide (j < i)
      | None => true
      end && links_ok_from (S i) tab'
  end.

Definition heap_ok (sm : StateMachine Payload) : bool :=
  links_ok_from 0 (tab sm)
  && bool_decide (map_Forall (λ _ i, i < length (tab sm)) (queue sm)).

(** Nothing is linked yet: the machine as constructed. *)
Definition unlinked (sm : StateMachine Payload) : bool :=
  forallb (λ a, bool_decide (next a = None)) (tab sm)
  && bool_decide (queue sm = ∅).

(** The variant that resolves [message_] at [s]. *)
Definition resolved (sm : StateMachine Payload) (s : State)
    (message_ : Message Payload) : option Variant :=
  match lookup sm s (event message_) with
  | Some i =>
      match tab sm !! i with
      | Some a => Some (action a)
      | None => None
      end
  | None => None
  end.

(** The handler invocation, if any, of resolving [message_] at [s]. *)
Definition fire (sm : StateMachine Payload) (message_ : Message Payload)
    (s : State) : list (Obs Payload) :=
  match lookup sm s (event message_) with
  | Some i =>
      match tab sm !! i with
      | Some a =>
          match action a with
          | VHandler _ => [Fired s i message_]
          | VState _ => []
          end
      | None => []
      end
  | None => []
  end.

(** The target that resolving [message_] at [s] arrives at: [None] when
    [s] has no binding, [Some s] when the binding asks for no
    transition. *)
Definition request (sm : StateMachine Payload) (s : State)
    (message_ : Message Payload) : option State :=
  match resolved sm s message_ with
  | None => None
  | Some (VState t) => Some t
  | Some (VHandler handler_) =>
      match handler_ message_ with
      | Some t => Some t
      | None => Some s
      end
  end.

(** The value left in [StateMachine::target] by that resolution. *)
Definition requested (sm : StateMachine Payload) (s : State)
    (message_ : Message Payload) : option State :=
  match resolved sm s message_ with
  | Some (VHandler handler_) =>
      match handler_ message_ with
      | Some t => Some t
      | None => Some s
      end
  | _ => Some s
  end.

(** [descends sm message_ s leaf]: from [s], following the transition
    that the resolution of [message_] asks for, each time to a child,
    ends at [leaf], where it asks for none. *)
Inductive descends (sm : StateMachine Payload)
    (message_ : Message Payload) : State → State → Prop :=
| descends_stop s :
    request sm s message_ = None ∨ request sm s message_ = Some s →
    descends sm message_ s s
| descends_step s t leaf :
    request sm s message_ = Some t →
    t ≠ s →
    parent parents t = Some s →
    descends sm message_ t leaf →
    descends sm message_ s leaf.

(** The descent as the specification words it: only bindings of [Init]
    that are direct transitions are followed. *)
Inductive follows_direct_init (sm : StateMachine Payload)
  : State → State → Prop :=
| follows_stop s :
    (∀ i a t, lookup sm s Event.Init = Some i →
              tab sm !! i = Some a → action a = VState t → t = s) →
    follows_direct_init sm s s
| follows_step s i a t leaf :
    lookup sm s Event.Init = Some i →
    tab sm !! i = Some a →
    action a = VState t →
    t ≠ s →
    follows_direct_init sm t leaf →
    follows_direct_init sm s leaf.

(** Results with a trace put in front, and with the value dropped. *)
Definition after {A : Type} (tr : list (Obs Payload))
    (r : result (A * StateMachine Payload * list (Obs Payload)))
  : result (A * StateMachine Payload * list (Obs Payload)) :=
  match r with
  | Ret (a, sm, tr') => Ret (a, sm, tr ++ tr')
  | Fault e => Fault e
  end.

Definition forget {A : Type}
    (r : result (A * StateMachine Payload * list (Obs Payload)))
  : result (unit * StateMachine Payload * list (Obs Payload)) :=
  match r with
  | Ret (_, sm, tr) => Ret (tt, sm, tr)
  | Fault e => Fault e
  end.

(** The actions of the table [tab_] that belong to [s], in the order of
    the table: all of them, and those among the first [k]. *)
Definition declared_upto (tab_ : list (Action Payload)) (s : State) (k : nat)
  : list ActRef :=
  filter (λ i, owner <$> tab_ !! i = Some s) (seq 0 k).

Definition declared (tab_ : list (Action Payload)) (s : State)
  : list ActRef :=
  declared_upto tab_ s (length tab_).

(** Two machines with the same active state, table and queues: they
    differ at most in the pending target. *)
Definition same_but_target (sm sm' : StateMachine Payload) : Prop :=
  state sm = state sm' ∧ tab sm = tab sm' ∧ queue sm = queue sm'.

(** Two outcomes with the same value and trace, or the same fault, and
    machines that differ at most in the pending target. *)
Definition agree {A : Type}
    (r r' : result (A * StateMachine Payload * list (Obs Payload))) : Prop :=
  match r, r' with
  | Ret (a, sm, tr), Ret (a', sm', tr') =>
      a = a' ∧ tr = tr' ∧ same_but_target sm sm'
  | Fault e, Fault e' => e = e'
  | _, _ => False
  end.

End Specification.

(** ** The recorder of the example application

    The states in construction order, the action table as it is written
    there; its handlers only print, so they request no transition. *)
Module VCR.

Definition Power : N := 5.
Definition Stop : N := 6.
Definition Play : N := 7.
Definition Pause : N := 8.
Definition Rec : N := 9.
Definition Rew : N := 10.
Definition FF : N := 11.

Definition StateOff : nat := 0.
Definition StateIdle : nat := 1.
Definition StateIdleStop : nat := 2.
Definition StateIdleFF : nat := 3.
Definition StateIdleRew : nat := 4.
Definition StatePlaying : nat := 5.
Definition StatePlayingPlay : nat := 6.
Definition StatePlayingPause : nat := 7.
Definition StateRecording : nat := 8.
Definition StateRecordingRecord : nat := 9.
Definition StateRecordingPause : nat := 10.

Definition parents : list (option nat) :=
  [ None; None; Some StateIdle; Some StateIdle; Some StateIdle;
    None; Some StatePlaying; Some StatePlaying;
    None; Some StateRecording; Some StateRecording ].

Definition puts : @Handler unit := λ _, None.

Definition to (owner_ : nat) (event_ : N) (state_ : nat) : Action unit :=
  {| owner := owner_; aevent := event_; action := VState state_;
     next := None |}.

Definition on (owner_ : nat) (event_ : N) (handler_ : @Handler unit)
  : Action unit :=
  {| owner := owner_; aevent := event_; action := VHandler handler_;
     next := None |}.

Definition table : list (Action unit) :=
  [ on StateOff Event.Entry puts;
    on StateOff Event.Exit puts;
    to StateOff Power StateIdle;
    on StateIdle Event.Entry puts;
    on StateIdle Event.Exit puts;
    to StateIdle Event.Init StateIdleStop;
    to StateIdle Power StateOff;
    to StateIdle Play StatePlaying;
    to StateIdle Rec StateRecording;
    on StateIdleStop Event.Entry puts;
    to StateIdleStop Rew StateIdleRew;
    to StateIdleStop FF StateIdleFF;
    on StateIdleRew Event.Entry puts;
    to StateIdleRew Stop StateIdle;
    on StateIdleFF Event.Entry puts;
    to StateIdleFF Stop StateIdle;
    on StatePlaying Event.Entry puts;
    on StatePlaying Event.Exit puts;
    to StatePlaying Event.Init StatePlayingPlay;
    to StatePlaying Power StateOff;
    to StatePlaying Stop StateIdle;
    on StatePlayingPlay Event.Entry puts;
    to StatePlayingPlay Pause StatePlayingPause;
    on StatePlayingPause Event.Entry puts;
    to StatePlayingPause Play StatePlayingPlay;
    on StateRecording Event.Entry puts;
    on StateRecording Event.Exit puts;
    to StateRecording Event.Init StateRecordingRecord;
    to StateRecording Power StateOff;
    to StateRecording Stop StateIdle;
    on StateRecordingRecord Event.Entry puts;
    to StateRecordingRecord Pause StateRecordingPause;
    on StateRecordingPause Event.Entry puts;
    to StateRecordingPause Rec StateRecordingRecord ].

Definition msg (event_ : N) : Message unit :=
  {| event := event_; payload := tt |}.

(** [auto vcr = hsm::StateMachine{{ ... }}] *)
Definition vcr : StateMachine unit :=
  {| state := None; target := None; tab := table; queue := ∅ |}.

(** The machine after [start] has linked the table, and the same with
    a given active state. *)
Definition linked : StateMachine unit := linkAll vcr.

Definition active (s : nat) : StateMachine unit :=
  setState linked (Some s).

(** The active states after [start(StateOff)] and after each of the
    messages of [main], [None] standing for a fault. *)
Fixpoint trajectory (fuel : nat) (events : list N) (sm : StateMachine unit)
  : list (option (option nat)) :=
  match events with
  | [] => []
  | e :: events' =>
      match message (msg Event.ALL) parents false fuel (msg e) sm with
      | Ret (_, sm', _) => Some (state sm') :: trajectory fuel events' sm'
      | Fault _ => [None]
      end
  end.

Definition main (fuel : nat) : list (option (option nat)) :=
  match start (msg Event.ALL) parents false fuel StateOff vcr with
  | Ret (_, sm, _) =>
      Some (state sm)
      :: trajectory fuel
           [Power; Rew; Stop; Play; Pause; Play; Stop; Rew; Stop; Rec; Stop;
            Power; Event.Stop] sm
  | Fault _ => [None]
  end.

End VCR.

(** ** Small configurations *)

(** A state with an exact binding declared before a wildcard binding. *)
Module Shadowed.

Definition parents : list (option nat) := [None; None].

Definition table : list (Action unit) :=
  [ VCR.to 0 Event.User 1;
    VCR.on 0 Event.ALL VCR.puts ].

Definition machine : StateMachine unit :=
  linkAll {| state := None; target := None; tab := table; queue := ∅ |}.

End Shadowed.

(** A top-level state whose Init handler asks for its child. *)
Module InitHandler.

Definition parents : list (option nat) := [None; Some 0].

Definition table : list (Action unit) :=
  [ VCR.on 0 Event.Init (λ _, Some 1) ].

Definition machine : StateMachine unit :=
  {| state := None; target := None; tab := table; queue := ∅ |}.

End InitHandler.

(** One state with one binding; the machine is started, stopped and
    started again. *)
Module Restart.

Definition parents : list (option nat) := [None; None].

Definition table : list (Action unit) := [ VCR.to 0 Event.User 1 ].

Definition machine : StateMachine unit :=
  {| state := None; target := None; tab := table; queue := ∅ |}.

Definition run (c : M unit unit) (sm : StateMachine unit)
  : StateMachine unit :=
  match c sm with
  | Ret (_, sm', _) => sm'
  | Fault _ => sm
  end.

Definition started : StateMachine unit :=
  run (start (VCR.msg Event.ALL) parents false 8 0) machine.

Definition stopped : StateMachine unit :=
  run (message (VCR.msg Event.ALL) parents false 8 (VCR.msg Event.Stop))
    started.

End Restart.

(** A child state that swallows the user event its parent handles. *)
Module Ignoring.

Definition parents : list (option nat) := [None; Some 0].

Definition table : list (Action unit) :=
  [ Action_handler 0 Event.User VCR.puts;
    Action_owner 1 Event.User ].

Definition machine : StateMachine unit :=
  setState (linkAll (StateMachine_new table)) (Some 1).

End Ignoring.

(** A machine on which [start], Stop and a second [start] all return.
    Parent (state 0) and Leaf (state 1, child of Parent) both bind Entry
    and Init, so that every lookup the second [start] makes finds its
    binding; Other (state 2) is a second top-level state.

      Action tab[] = { { Parent, Entry,  handler }, { Parent, Exit, handler },
                       { Parent, Init,   Leaf    }, { Parent, Second, handler },
                       { Leaf,   Entry,  handler }, { Leaf,   Init, handler },
                       { Leaf,   First,  Other   } };
      start(Parent); message({Stop}); start(Parent); *)
Module Relinked.

Definition First : N := 5.
Definition Second : N := 6.
Definition Third : N := 7.

Definition Parent : nat := 0.
Definition Leaf : nat := 1.
Definition Other : nat := 2.

Definition parents : list (option nat) := [None; Some Parent; None].

Definition table : list (Action unit) :=
  [ Action_handler Parent Event.Entry VCR.puts;
    Action_handler Parent Event.Exit VCR.puts;
    Action_state Parent Event.Init Leaf;
    Action_handler Parent Second VCR.puts;
    Action_handler Leaf Event.Entry VCR.puts;
    Action_handler Leaf Event.Init VCR.puts;
    Action_state Leaf First Other ].

Definition machine : StateMachine unit := StateMachine_new table.

Definition started : StateMachine unit :=
  Restart.run (start (VCR.msg Event.ALL) parents false 20 Parent) machine.

Definition stopped : StateMachine unit :=
  Restart.run
    (message (VCR.msg Event.ALL) parents false 20 (VCR.msg Event.Stop))
    started.

Definition restarted : StateMachine unit :=
  Restart.run (start (VCR.msg Event.ALL) parents false 20 Parent) stopped.

(** The call [c] on the machine [sm] returns, with the machine [sm']. *)
Definition returns (c : M unit unit) (sm sm' : StateMachine unit) : Prop :=
  ∃ tr, c sm = Ret (tt, sm', tr).

(** The three calls return, one after the other. *)
Definition reached : Prop :=
  returns (start (VCR.msg Event.ALL) parents false 20 Parent)
    machine started
  ∧ returns (message (VCR.msg Event.ALL) parents false 20
               (VCR.msg Event.Stop))
      started stopped
  ∧ returns (start (VCR.msg Event.ALL) parents false 20 Parent)
      stopped restarted.

End Relinked.

(** * Verification *)

(** ** The state tree *)

Section TreeFacts.

Variable parents : list (option State).
Hypothesis Htree : tree_ok parents = true.

#[local] Abbreviation parent := (parent parents).
#[local] Abbreviation chain := (chain parents).
#[local] Abbreviation path := (path parents).
#[local] Abbreviation ancestor := (ancestor parents).

Lemma tree_ok_from_lookup (ps : list (option State)) k i q :
  tree_ok_from k ps = true → ps !! i = Some (Some q) → q < k + i.
Proof.
  revert k i. induction ps as [|p ps IH]; intros k i Hok Hi; [done|].
  simpl in Hok. apply andb_prop in Hok as [Hp Hps].
  destruct i as [|i]; simpl in Hi.
  - injection Hi as ->. apply bool_decide_eq_true in Hp. lia.
  - specialize (IH (S k) i Hps Hi). lia.
Qed.

Lemma parent_lt s p : parent s = Some p → p < s ∧ s < length parents.
Proof using Htree.
  unfold parent. intros Hp.
  destruct (parents !! s) as [o|] eqn:Hs; [|done]. subst o.
  split.
  - apply (tree_ok_from_lookup parents 0 s p Htree Hs).
  - by apply lookup_lt_Some in Hs.
Qed.

Lemma parent_outside s : length parents ≤ s → parent s = None.
Proof.
  intros Hs. unfold parent.
  by rewrite (lookup_ge_None_2 parents s Hs).
Qed.

Lemma chain_det x l l' : chain x l → chain x l' → l = l'.
Proof.
  intros H. revert l'. induction H as [|s l _ IH]; intros l' H'.
  - by inversion H'.
  - inversion H' as [|s' l'' Hl'']; subst. f_equal. by apply IH.
Qed.

Lemma chain_inj x y l : chain x l → chain y l → x = y.
Proof. intros Hx Hy. inversion Hx; subst; by inversion Hy. Qed.

Lemma chain_app_ne s l1 l2 :
  chain (Some s) l2 → ¬ chain (Some s) (s :: l1 ++ l2).
Proof.
  intros H2 H1. pose proof (chain_det _ _ _ H1 H2) as Heq.
  apply (f_equal length) in Heq. simpl in Heq. rewrite length_app in Heq. lia.
Qed.

Lemma path_from_None n : path_from parents n None = [].
Proof. by destruct n. Qed.

Lemma path_from_length n x : length (path_from parents n x) ≤ n.
Proof.
  revert x. induction n as [|n IH]; intros x; simpl; [lia|].
  destruct x as [s|]; simpl; [|lia]. specialize (IH (parent s)). lia.
Qed.

Lemma path_from_chain n s :
  s < n → chain (Some s) (path_from parents n (Some s)).
Proof using Htree.
  revert s. induction n as [|n IH]; intros s Hs; [lia|].
  simpl. constructor. destruct (parent s) as [p|] eqn:Hp.
  - apply IH. apply parent_lt in Hp. lia.
  - rewrite path_from_None. constructor.
Qed.

Lemma path_chain x : chain x (path x).
Proof using Htree.
  destruct x as [s|]; [|constructor].
  destruct (decide (s < S (length parents))) as [Hs|Hs].
  - by apply path_from_chain.
  - unfold path. simpl. constructor.
    rewrite parent_outside by lia. rewrite path_from_None. constructor.
Qed.

Lemma chain_path x l : chain x l → l = path x.
Proof using Htree. intros H. exact (chain_det _ _ _ H (path_chain x)). Qed.

Lemma chain_length x l : chain x l → length l ≤ S (length parents).
Proof using Htree.
  intros H. rewrite (chain_path _ _ H). apply path_from_length.
Qed.

Lemma chain_drop x l i c :
  chain x l → l !! i = Some c → chain (Some c) (drop i l).
Proof.
  intros H. revert i. induction H as [|s l Hl IH]; intros i Hi; [done|].
  destruct i as [|i]; simpl in *.
  - injection Hi as ->. by constructor.
  - by apply IH.
Qed.

Lemma chain_suffix x l1 l2 : chain x (l1 ++ l2) → ∃ y, chain y l2.
Proof.
  revert x. induction l1 as [|s l1 IH]; intros x H; [by exists x|].
  inversion H; subst. eauto.
Qed.

Lemma ancestor_chain c x l : chain x l → ancestor c x ↔ c ∈ l.
Proof.
  intros H. split.
  - intros Ha. revert l H. induction Ha as [|s _ IH]; intros l H.
    + inversion H; subst. left.
    + inversion H; subst. right. by apply IH.
  - induction H as [|s l _ IH]; intros Hc.
    + by apply elem_of_nil in Hc.
    + apply elem_of_cons in Hc as [->|Hc]; [constructor|].
      constructor 2. by apply IH.
Qed.

Lemma chain_same_depth a b la lb i j c :
  chain a la → chain b lb → la !! i = Some c → lb !! j = Some c →
  length la - i = length lb - j.
Proof.
  intros Ha Hb Hi Hj.
  pose proof (chain_det _ _ _ (chain_drop _ _ _ _ Ha Hi)
                (chain_drop _ _ _ _ Hb Hj)) as Heq.
  apply (f_equal length) in Heq. by rewrite !length_drop in Heq.
Qed.

(** *** [getLevel] and [getRoot] *)

Lemma getLevel_loop_chain x l fuel z :
  chain x l → length l ≤ fuel →
  getLevel_loop parents fuel x z = Ret (z + Z.of_nat (length l))%Z.
Proof.
  intros H. revert fuel z. induction H as [|s l _ IH]; intros fuel z Hf.
  - destruct fuel; simpl; f_equal; lia.
  - simpl in Hf. destruct fuel as [|fuel]; [lia|]. simpl.
    rewrite IH by lia. f_equal. lia.
Qed.

Lemma getRoot_first_spec x l fuel d :
  chain x l → (d ≤ Z.of_nat (length l))%Z → Z.to_nat d ≤ fuel →
  ∃ y, getRoot_first parents fuel d x = Ret ((Z.min d 0 - 1)%Z, y)
       ∧ chain y (drop (Z.to_nat d) l).
Proof.
  intros H. revert fuel d. induction H as [|s l Hl IH]; intros fuel d Hd Hf.
  - simpl in Hd. exists None. replace (Z.to_nat d) with 0 by lia.
    split; [|constructor].
    destruct fuel; simpl; rewrite (proj2 (Z.ltb_ge 0 d)) by lia;
      do 2 f_equal; lia.
  - destruct (decide (0 < d)%Z) as [Hpos|Hneg].
    + destruct fuel as [|fuel]; [lia|]. simpl.
      rewrite (proj2 (Z.ltb_lt 0 d)) by lia.
      destruct (IH fuel (d - 1)%Z) as (y & Hy & Hc).
      { simpl in Hd. lia. } { lia. }
      exists y. rewrite Hy. split; [do 2 f_equal; lia|].
      replace (Z.to_nat d) with (S (Z.to_nat (d - 1))) by lia. done.
    + exists (Some s). replace (Z.to_nat d) with 0 by lia.
      split; [|by constructor].
      destruct fuel; simpl; rewrite (proj2 (Z.ltb_ge 0 d)) by lia;
        do 2 f_equal; lia.
Qed.

Lemma getRoot_second_spec y l fuel k :
  chain y l → k ≤ length l → k ≤ fuel →
  ∃ y', getRoot_second parents fuel (- Z.of_nat k - 1) y = Ret (0%Z, y')
        ∧ chain y' (drop k l).
Proof.
  intros H. revert fuel k. induction H as [|s l Hl IH]; intros fuel k Hk Hf.
  - simpl in Hk. assert (k = 0) as -> by lia. exists None.
    split; [|constructor]. by destruct fuel.
  - destruct k as [|k].
    + exists (Some s). split; [|by constructor]. by destruct fuel.
    + destruct fuel as [|fuel]; [lia|]. simpl getRoot_second.
      rewrite (proj2 (Z.ltb_lt (- Z.of_nat (S k) - 1 + 1) 0)) by lia.
      destruct (IH fuel k) as (y' & Hy' & Hc); [simpl in Hk; lia|lia|].
      exists y'. split; [|done].
      replace (- Z.of_nat (S k) - 1 + 1)%Z with (- Z.of_nat k - 1)%Z by lia.
      done.
Qed.

Lemma getRoot_both_spec a b l1 l2 fuel :
  chain a l1 → chain b l2 → length l1 = length l2 → length l1 ≤ fuel →
  ∃ e1 e2 lr r,
    l1 = e1 ++ lr ∧ l2 = e2 ++ lr ∧ chain r lr ∧ length e1 = length e2
    ∧ (∀ i x y, e1 !! i = Some x → e2 !! i = Some y → x ≠ y)
    ∧ getRoot_both parents fuel a b = Ret r.
Proof.
  intros Ha. revert b l2 fuel.
  induction Ha as [|s l1 Hl1 IH]; intros b l2 fuel Hb Hlen Hf.
  - destruct l2; [|done]. inversion Hb; subst.
    exists [], [], [], None. repeat split; try done; try constructor.
    by destruct fuel.
  - destruct (decide (Some s = b)) as [<-|Hne].
    + pose proof (chain_det _ _ _ Hb (chain_cons _ _ _ Hl1)) as ->.
      exists [], [], (s :: l1), (Some s).
      repeat split; try done.
      destruct fuel; simpl; by rewrite decide_True.
    + inversion Hb as [|o l2' Hl2']; subst; [done|].
      simpl in Hlen, Hf. destruct fuel as [|fuel]; [lia|].
      destruct (IH (parent o) l2' fuel Hl2') as
        (e1 & e2 & lr & r & -> & -> & Hr & Hlen' & Hdiff & Hres); [lia|lia|].
      exists (s :: e1), (o :: e2), lr, r.
      repeat split; try done; [simpl; lia| |].
      * intros [|i] x y Hx Hy; simpl in *; [congruence|by eapply Hdiff].
      * simpl. by rewrite decide_False.
Qed.

Lemma getRoot_spec a b fuel :
  S (length parents) ≤ fuel →
  ∃ ex en lr r,
    path a = ex ++ lr ∧ path b = en ++ lr ∧ chain r lr
    ∧ (∀ c, c ∈ ex → c ∉ en)
    ∧ getRoot parents fuel a b = Ret r.
Proof using Htree.
  intros Hf.
  pose proof (path_chain a) as Ha. pose proof (path_chain b) as Hb.
  pose proof (chain_length _ _ Ha) as Hla.
  pose proof (chain_length _ _ Hb) as Hlb.
  set (la := path a) in *. set (lb := path b) in *.
  unfold getRoot, getLevel.
  rewrite (getLevel_loop_chain _ _ _ _ Ha), (getLevel_loop_chain _ _ _ _ Hb)
    by lia.
  destruct (getRoot_first_spec a la fuel
              (0 + Z.of_nat (length la) - (0 + Z.of_nat (length lb)))%Z Ha)
    as (y & -> & Hy); [lia|lia|].
  set (k1 := Z.to_nat (0 + Z.of_nat (length la)
                       - (0 + Z.of_nat (length lb)))) in *.
  set (k2 := length lb - length la).
  replace (Z.min (0 + Z.of_nat (length la) - (0 + Z.of_nat (length lb))) 0 - 1)%Z
    with (- Z.of_nat k2 - 1)%Z by lia.
  destruct (getRoot_second_spec b lb fuel k2 Hb) as (y' & -> & Hy');
    [lia|lia|].
  destruct (getRoot_both_spec y y' _ _ fuel Hy Hy')
    as (e1 & e2 & lr & r & H1 & H2 & Hr & Hlen & Hdiff & ->).
  { rewrite !length_drop. lia. } { rewrite length_drop. lia. }
  exists (take k1 la ++ e1), (take k2 lb ++ e2), lr, r.
  assert (la = (take k1 la ++ e1) ++ lr) as Ela.
  { rewrite <- (assoc_L (++)), <- H1. by rewrite take_drop. }
  assert (lb = (take k2 lb ++ e2) ++ lr) as Elb.
  { rewrite <- (assoc_L (++)), <- H2. by rewrite take_drop. }
  repeat split; try done.
  intros c Hex Hen.
  apply list_elem_of_lookup in Hex as [i Hi].
  apply list_elem_of_lookup in Hen as [j Hj].
  pose proof (lookup_lt_Some _ _ _ Hi) as Hil.
  pose proof (lookup_lt_Some _ _ _ Hj) as Hjl.
  assert (la !! i = Some c) as Hi'.
  { rewrite Ela. by rewrite lookup_app_l. }
  assert (lb !! j = Some c) as Hj'.
  { rewrite Elb. by rewrite lookup_app_l. }
  pose proof (chain_same_depth _ _ _ _ _ _ _ Ha Hb Hi' Hj') as Hdepth.
  rewrite !length_app, !length_take in Hil, Hjl.
  assert (length la = length (take k1 la) + length e1 + length lr) as Lla.
  { rewrite Ela at 1. by rewrite !length_app. }
  assert (length lb = length (take k2 lb) + length e2 + length lr) as Llb.
  { rewrite Elb at 1. by rewrite !length_app. }
  rewrite !length_take in Lla, Llb.
  assert (i - k1 = j - k2 ∧ k1 ≤ i ∧ k2 ≤ j) as (Hij & Hk1 & Hk2) by lia.
  rewrite lookup_app_r in Hi by (rewrite length_take; lia).
  rewrite lookup_app_r in Hj by (rewrite length_take; lia).
  rewrite !length_take in Hi, Hj.
  replace (i - k1 `min` length la) with (i - k1) in Hi by lia.
  replace (j - k2 `min` length lb) with (i - k1) in Hj by lia.
  by eapply Hdiff.
Qed.

(** *** [getNext] *)

Lemma getNext_spec r sign en c lr fuel :
  chain sign (en ++ c :: lr) → chain r lr → length en ≤ fuel →
  getNext parents fuel r sign = Ret (Some c).
Proof.
  revert sign fuel. induction en as [|s en IH]; intros sign fuel Hs Hr Hf.
  - inversion Hs as [|c' l' Hc]; subst.
    pose proof (chain_inj _ _ _ Hr Hc) as ->.
    destruct fuel; simpl; by rewrite decide_True.
  - inversion Hs as [|s' l' Hp]; subst.
    simpl in Hf. destruct fuel as [|fuel]; [lia|]. simpl.
    rewrite decide_False; [apply IH; [done|done|lia]|].
    intros ->. pose proof (chain_det _ _ _ Hp Hr) as Heq.
    apply (f_equal length) in Heq. rewrite length_app in Heq.
    simpl in Heq. lia.
Qed.

(** C8.  For all states A and B, [getRoot A B] -- equalise the depths,
    then walk both upward in lockstep -- returns a state that is A or an
    ancestor of A and is B or an ancestor of B; every state with that
    property is the result or above it, so the result is the deepest
    one; and the result is [nullptr] when one side is absent or when A
    and B have no common ancestor. *)
Theorem C8_getRoot_least_common_ancestor a b fuel :
  S (length parents) ≤ fuel →
  ∃ r, getRoot parents fuel a b = Ret r
    ∧ (∀ c, r = Some c → ancestor c a ∧ ancestor c b)
    ∧ (∀ c, ancestor c a → ancestor c b →
            ∃ d, r = Some d ∧ ancestor c (Some d))
    ∧ (a = None ∨ b = None → r = None).
Proof using Htree.
  intros Hf.
  destruct (getRoot_spec a b fuel Hf)
    as (ex & en & lr & r & Hex & Hen & Hr & Hdisj & Hroot).
  pose proof (path_chain a) as Ha. pose proof (path_chain b) as Hb.
  assert (∀ c, r = Some c → ancestor c a ∧ ancestor c b) as Hanc.
  { intros c ->. inversion Hr as [|c' l' Hp]; subst.
    split; [apply (ancestor_chain c _ _ Ha)|apply (ancestor_chain c _ _ Hb)].
    - rewrite Hex. set_solver.
    - rewrite Hen. set_solver. }
  exists r. split; [done|]. split; [done|]. split.
  - intros c Hca Hcb.
    apply (ancestor_chain c _ _ Ha) in Hca.
    apply (ancestor_chain c _ _ Hb) in Hcb.
    rewrite Hex in Hca. rewrite Hen in Hcb.
    assert (c ∈ lr) as Hc.
    { apply elem_of_app in Hca as [Hca|]; [|done].
      apply elem_of_app in Hcb as [Hcb|]; [|done].
      by destruct (Hdisj c Hca). }
    destruct r as [d|]; [|inversion Hr; subst; by apply elem_of_nil in Hc].
    exists d. split; [done|]. by apply (ancestor_chain c _ _ Hr).
  - intros Hnone. destruct r as [c|]; [|done].
    destruct (Hanc c eq_refl) as [H1 H2].
    destruct Hnone as [->| ->]; [inversion H1|inversion H2].
Qed.

(** *** Further properties of the tree walks *)

(** [getLevel] counts the state and its ancestors: the length of the
    chain from the state to its top-level ancestor, [0] for [nullptr]. *)
Theorem getLevel_counts_chain x fuel :
  S (length parents) ≤ fuel →
  ∃ l, chain x l ∧ getLevel parents fuel x = Ret (Z.of_nat (length l)).
Proof using Htree.
  intros Hf. exists (path x). split; [apply path_chain|].
  unfold getLevel. rewrite (getLevel_loop_chain x (path x)).
  - done.
  - apply path_chain.
  - pose proof (chain_length _ _ (path_chain x)). lia.
Qed.

Lemma getNext_find st sign l fuel :
  chain sign l → length l ≤ fuel →
  getNext parents fuel st sign
  = Ret (find (λ c, bool_decide (st = parent c)) l).
Proof.
  intros H. revert fuel. induction H as [|s l Hl IH]; intros fuel Hf.
  - by destruct fuel.
  - simpl in Hf. destruct fuel as [|fuel]; [lia|]. simpl.
    destruct (decide (st = parent s)) as [Heq|Hne].
    + by rewrite bool_decide_eq_true_2.
    + rewrite bool_decide_eq_false_2 by done. apply IH. lia.
Qed.

(** [getNext state_ sign_] walks from [sign_] upward and returns the
    first state whose parent is [state_]: a child of [state_] that is
    [sign_] or above it.  It returns [nullptr] exactly when no state on
    that way has [state_] as parent, in particular when [sign_] is not
    below [state_]. *)
Theorem getNext_child_towards st sign fuel :
  S (length parents) ≤ fuel →
  ∃ r, getNext parents fuel st sign = Ret r
    ∧ r = find (λ c, bool_decide (st = parent c)) (path sign)
    ∧ (∀ c, r = Some c → parent c = st ∧ ancestor c sign)
    ∧ (r = None ↔ ∀ c, ancestor c sign → parent c ≠ st).
Proof using Htree.
  intros Hf. pose proof (path_chain sign) as Hc.
  pose proof (chain_length _ _ Hc) as Hlen.
  eexists. split; [apply (getNext_find st sign (path sign)); [done|lia]|].
  split; [done|]. split.
  - intros c Hfind. apply find_some in Hfind as [Hin Hp].
    apply bool_decide_eq_true in Hp. split; [done|].
    apply (ancestor_chain c _ _ Hc). by apply list_elem_of_In.
  - split.
    + intros Hnone c Hanc Hp. apply (ancestor_chain c _ _ Hc) in Hanc.
      apply list_elem_of_In in Hanc.
      pose proof (find_none _ _ Hnone c Hanc) as Hb.
      apply bool_decide_eq_false in Hb. congruence.
    + intros Hall.
      destruct (find _ (path sign)) as [c|] eqn:Hfind; [|done].
      apply find_some in Hfind as [Hin Hp].
      apply bool_decide_eq_true in Hp. exfalso. apply (Hall c); [|done].
      apply (ancestor_chain c _ _ Hc). by apply list_elem_of_In.
Qed.

End TreeFacts.

(** ** The action lists *)

Section HeapFacts.

Context {Payload : Type}.
Implicit Types (sm : StateMachine Payload) (tb : list (Action Payload)).

Lemma links_ok_from_lookup tb k i a j :
  links_ok_from k tb = true → tb !! i = Some a → next a = Some j →
  j < k + i.
Proof.
  revert k i. induction tb as [|b tb IH]; intros k i Hok Hi Hj; [done|].
  simpl in Hok. apply andb_prop in Hok as [Hb Hok].
  destruct i as [|i]; simpl in Hi.
  - injection Hi as ->. rewrite Hj in Hb.
    apply bool_decide_eq_true in Hb. lia.
  - specialize (IH (S k) i Hok Hi Hj). lia.
Qed.

Lemma links_from_None n tb : links_from n tb None = [].
Proof. by destruct n. Qed.

Lemma links_from_length n tb h : length (links_from n tb h) ≤ n.
Proof.
  revert h. induction n as [|n IH]; intros h; simpl; [lia|].
  destruct h as [i|]; simpl; [|lia].
  specialize (IH (match tb !! i with Some a => next a | None => None end)).
  lia.
Qed.

Lemma links_from_queue_list tb n i :
  links_ok_from 0 tb = true → i < n → i < length tb →
  queue_list tb (Some i) (links_from n tb (Some i)).
Proof.
  intros Hok. revert i. induction n as [|n IH]; intros i Hn Hi; [lia|].
  destruct (lookup_lt_is_Some_2 tb i Hi) as [a Ha].
  simpl. rewrite Ha. apply (queue_list_cons _ _ a); [done|].
  destruct (next a) as [j|] eqn:Hj.
  - pose proof (links_ok_from_lookup _ _ _ _ _ Hok Ha Hj).
    apply IH; lia.
  - rewrite links_from_None. constructor.
Qed.

Lemma bindings_queue_list sm s :
  heap_ok sm = true →
  queue_list (tab sm) (queue sm !! s) (bindings sm s).
Proof.
  unfold heap_ok, bindings. intros Hok.
  apply andb_prop in Hok as [Hlinks Hq]. apply bool_decide_eq_true in Hq.
  destruct (queue sm !! s) as [i|] eqn:Hs.
  - pose proof (Hq _ _ Hs). by apply links_from_queue_list.
  - rewrite links_from_None. constructor.
Qed.

Lemma bindings_length sm s : length (bindings sm s) ≤ length (tab sm).
Proof. apply links_from_length. Qed.

Lemma getAction_loop_list tb h l fuel event_ :
  queue_list tb h l → length l ≤ fuel →
  getAction_loop fuel tb h event_ = Ret (find (matches tb event_) l).
Proof.
  intros H. revert fuel. induction H as [|i a l Ha Hl IH]; intros fuel Hf.
  - by destruct fuel.
  - simpl in Hf. unfold matches at 1. simpl find. rewrite Ha.
    destruct fuel as [|fuel]; [lia|]. simpl. rewrite Ha.
    destruct (decide (aevent a ≠ event_ ∧ aevent a ≠ Event.ALL))
      as [[H1 H2]|Hm].
    + rewrite bool_decide_eq_false_2 by tauto.
      unfold matches in IH. apply IH. lia.
    + rewrite bool_decide_eq_true_2; [done|].
      destruct (decide (aevent a = event_)); [tauto|].
      destruct (decide (aevent a = Event.ALL)); tauto.
Qed.

Lemma getAction_lookup sm s fuel event_ :
  heap_ok sm = true → length (tab sm) ≤ fuel →
  getAction fuel sm (Some s) event_ = Ret (lookup sm s event_).
Proof.
  intros Hok Hf. unfold getAction, lookup.
  apply getAction_loop_list; [by apply bindings_queue_list|].
  pose proof (bindings_length sm s). lia.
Qed.

Lemma lookup_Some_tab sm s event_ i :
  lookup sm s event_ = Some i → is_Some (tab sm !! i).
Proof.
  unfold lookup. intros H. apply find_some in H as [_ H].
  unfold matches in H. by destruct (tab sm !! i).
Qed.


(** *** Linking *)

Lemma links_ok_from_intro tb k :
  (∀ i a j, tb !! i = Some a → next a = Some j → j < k + i) →
  links_ok_from k tb = true.
Proof.
  revert k. induction tb as [|b tb IH]; intros k H; [done|].
  simpl. apply andb_true_intro. split.
  - destruct (next b) as [j|] eqn:Hj; [|done].
    apply bool_decide_eq_true. specialize (H 0 b j eq_refl Hj). lia.
  - apply IH. intros i a j Hi Hj. specialize (H (S i) a j Hi Hj). lia.
Qed.

(** The first [k] actions are linked, the others are not. *)
Lemma link_step sm k :
  k < length (tab sm) →
  (∀ i a j, tab sm !! i = Some a → next a = Some j → j < i ∧ i < k) →
  (∀ s i, queue sm !! s = Some i → i < k) →
  length (tab (link k sm)) = length (tab sm)
  ∧ state (link k sm) = state sm
  ∧ (∀ i a j, tab (link k sm) !! i = Some a → next a = Some j →
              j < i ∧ i < S k)
  ∧ (∀ s i, queue (link k sm) !! s = Some i → i < S k).
Proof.
  intros Hk Hnext Hqueue. unfold link.
  destruct (lookup_lt_is_Some_2 _ _ Hk) as [a Ha]. rewrite Ha.
  destruct (next a) as [j|] eqn:Hj.
  { destruct (Hnext _ _ _ Ha Hj). lia. }
  simpl. rewrite length_insert. split; [done|]. split; [done|]. split.
  - intros i b j' Hi Hb. destruct (decide (i = k)) as [->|Hne].
    + rewrite list_lookup_insert_eq in Hi by done. injection Hi as <-.
      simpl in Hb. apply Hqueue in Hb. lia.
    + rewrite list_lookup_insert_ne in Hi by done.
      destruct (Hnext _ _ _ Hi Hb). lia.
  - intros s i Hs. destruct (decide (owner a = s)) as [<-|Hne].
    + rewrite lookup_insert_eq in Hs. injection Hs as <-. lia.
    + rewrite lookup_insert_ne in Hs by done. apply Hqueue in Hs. lia.
Qed.

Lemma link_seq len k sm :
  k + len = length (tab sm) →
  (∀ i a j, tab sm !! i = Some a → next a = Some j → j < i ∧ i < k) →
  (∀ s i, queue sm !! s = Some i → i < k) →
  let sm' := foldl (λ sm' i, link i sm') sm (seq k len) in
  length (tab sm') = length (tab sm)
  ∧ state sm' = state sm
  ∧ (∀ i a j, tab sm' !! i = Some a → next a = Some j → j < i)
  ∧ (∀ s i, queue sm' !! s = Some i → i < length (tab sm)).
Proof.
  revert k sm. induction len as [|len IH]; intros k sm Hlen Hnext Hqueue.
  - simpl. split; [done|]. split; [done|]. split.
    + intros i a j Hi Hj. by destruct (Hnext _ _ _ Hi Hj).
    + intros s i Hs. apply Hqueue in Hs. lia.
  - simpl.
    destruct (link_step sm k) as (Hl & Hst & Hnext' & Hqueue');
      [lia|done|done|].
    destruct (IH (S k) (link k sm)) as (Hl2 & Hst2 & Hn2 & Hq2);
      [lia|done|done|].
    rewrite Hl2, Hst2, Hl, Hst. split; [done|]. split; [done|].
    split; [done|]. intros s i Hs. apply Hq2 in Hs. lia.
Qed.

Lemma linkAll_heap_ok sm :
  unlinked sm = true →
  heap_ok (linkAll sm) = true
  ∧ state (linkAll sm) = state sm
  ∧ length (tab (linkAll sm)) = length (tab sm).
Proof.
  unfold unlinked. intros H. apply andb_prop in H as [Hnext Hq].
  apply bool_decide_eq_true in Hq.
  destruct (link_seq (length (tab sm)) 0 sm) as (Hl & Hst & Hn & Hqu).
  - done.
  - intros i a j Hi Hj. rewrite forallb_forall in Hnext.
    assert (In a (tab sm)) as Hin.
    { apply list_elem_of_In, list_elem_of_lookup. eauto. }
    apply Hnext, bool_decide_eq_true in Hin. congruence.
  - intros s i Hs. by rewrite Hq in Hs.
  - fold (linkAll sm) in *. split; [|done].
    unfold heap_ok. apply andb_true_intro. split.
    + apply links_ok_from_intro. intros i a j Hi Hj.
      specialize (Hn _ _ _ Hi Hj). lia.
    + apply bool_decide_eq_true. intros s i Hs. rewrite Hl. eauto.
Qed.

(** *** Further properties of linking *)

Lemma queue_list_det tb h l l' :
  queue_list tb h l → queue_list tb h l' → l = l'.
Proof.
  intros H. revert l'. induction H as [|i a l Ha _ IH]; intros l' H'.
  - by inversion H'.
  - inversion H' as [|i' a' l'' Ha' Hl'']; subst.
    rewrite Ha in Ha'. injection Ha' as <-. f_equal. by apply IH.
Qed.

Lemma bindings_unique sm s l :
  heap_ok sm = true → queue_list (tab sm) (queue sm !! s) l →
  bindings sm s = l.
Proof.
  intros Hok Hl. exact (queue_list_det _ _ _ _ (bindings_queue_list sm s Hok) Hl).
Qed.

Lemma queue_list_insert tb h l k a :
  queue_list tb h l → k ∉ l → queue_list (<[k:=a]> tb) h l.
Proof.
  induction 1 as [|i b l Hb _ IH]; intros Hk; [constructor|].
  apply not_elem_of_cons in Hk as [Hne Hk].
  apply (queue_list_cons _ _ b); [|by apply IH].
  by rewrite list_lookup_insert_ne.
Qed.

Lemma declared_upto_lt tb s k i : i ∈ declared_upto tb s k → i < k.
Proof.
  unfold declared_upto. intros H. apply list_elem_of_filter in H as [_ H].
  apply elem_of_seq in H. lia.
Qed.

Lemma declared_upto_S tb s k :
  declared_upto tb s (S k)
  = declared_upto tb s k
    ++ (if decide (owner <$> tb !! k = Some s) then [k] else []).
Proof.
  unfold declared_upto. rewrite seq_S, filter_app. by f_equal.
Qed.

Lemma link_order_step tb0 sm k :
  k < length (tab sm) →
  (∀ i a, k ≤ i → tab sm !! i = Some a → next a = None) →
  (∀ i, owner <$> tab sm !! i = owner <$> tb0 !! i) →
  (∀ s, queue_list (tab sm) (queue sm !! s) (rev (declared_upto tb0 s k))) →
  length (tab (link k sm)) = length (tab sm)
  ∧ (∀ i a, S k ≤ i → tab (link k sm) !! i = Some a → next a = None)
  ∧ (∀ i, owner <$> tab (link k sm) !! i = owner <$> tb0 !! i)
  ∧ (∀ s, queue_list (tab (link k sm)) (queue (link k sm) !! s)
            (rev (declared_upto tb0 s (S k)))).
Proof.
  intros Hk Hnext Hown Hlist. unfold link.
  destruct (lookup_lt_is_Some_2 _ _ Hk) as [a Ha]. rewrite Ha.
  rewrite (Hnext k a (le_n k) Ha). simpl. rewrite length_insert.
  split; [done|]. split; [|split].
  - intros i b Hi Hb. rewrite list_lookup_insert_ne in Hb by lia.
    apply (Hnext i b); [lia|done].
  - intros i. destruct (decide (i = k)) as [->|Hne].
    + rewrite list_lookup_insert_eq by done. simpl.
      by rewrite <- Hown, Ha.
    + by rewrite list_lookup_insert_ne.
  - intros s. rewrite declared_upto_S.
    assert (k ∉ rev (declared_upto tb0 s k)) as Hfresh.
    { intros Hin. apply list_elem_of_In, in_rev, list_elem_of_In in Hin.
      apply declared_upto_lt in Hin. lia. }
    assert (owner <$> tb0 !! k = Some (owner a)) as Hk0
      by (by rewrite <- Hown, Ha).
    rewrite Hk0. destruct (decide (Some (owner a) = Some s)) as [[= <-]|Hne].
    + rewrite lookup_insert_eq, rev_unit.
      eapply queue_list_cons; [by apply list_lookup_insert_eq|]. simpl.
      apply queue_list_insert; [apply Hlist|].
      intros Hin. apply list_elem_of_In, in_rev, list_elem_of_In in Hin.
      apply declared_upto_lt in Hin. lia.
    + rewrite lookup_insert_ne by congruence. rewrite app_nil_r.
      by apply queue_list_insert.
Qed.

Lemma link_order_seq tb0 len k sm :
  k + len = length (tab sm) →
  (∀ i a, k ≤ i → tab sm !! i = Some a → next a = None) →
  (∀ i, owner <$> tab sm !! i = owner <$> tb0 !! i) →
  (∀ s, queue_list (tab sm) (queue sm !! s) (rev (declared_upto tb0 s k))) →
  let sm' := foldl (λ sm' i, link i sm') sm (seq k len) in
  ∀ s, queue_list (tab sm') (queue sm' !! s)
         (rev (declared_upto tb0 s (length (tab sm)))).
Proof.
  revert k sm. induction len as [|len IH]; intros k sm Hlen Hnext Hown Hlist.
  - simpl. intros s. replace (length (tab sm)) with k by lia. apply Hlist.
  - simpl.
    destruct (link_order_step tb0 sm k) as (Hl & Hnext' & Hown' & Hlist');
      [lia|done|done|done|].
    specialize (IH (S k) (link k sm)). simpl in IH. rewrite Hl in IH.
    apply IH; (done || lia).
Qed.

Lemma linkAll_bindings sm s :
  unlinked sm = true →
  bindings (linkAll sm) s = rev (declared (tab sm) s).
Proof.
  intros Hfresh. destruct (linkAll_heap_ok sm Hfresh) as (Hok & _ & _).
  apply bindings_unique; [done|].
  unfold unlinked in Hfresh. apply andb_prop in Hfresh as [Hnext Hq].
  apply bool_decide_eq_true in Hq.
  apply (link_order_seq (tab sm) (length (tab sm)) 0 sm); try done.
  - intros i a _ Hi. rewrite forallb_forall in Hnext.
    assert (In a (tab sm)) as Hin
      by (apply list_elem_of_In, list_elem_of_lookup; eauto).
    by apply Hnext, bool_decide_eq_true in Hin.
  - intros s'. rewrite Hq, lookup_empty. constructor.
Qed.

(** Linking a table for the first time puts every action in the list of
    its owner and nowhere else, the action declared last at the head:
    the list of a state is the reverse of its declarations. *)
Theorem linkAll_reverse_declaration sm s :
  unlinked sm = true →
  bindings (linkAll sm) s = rev (declared (tab sm) s).
Proof. apply linkAll_bindings. Qed.

Lemma link_fields k sm i a :
  tab sm !! i = Some a →
  ∃ nx, tab (link k sm) !! i
        = Some {| owner := owner a; aevent := aevent a; action := action a;
                  next := nx |}.
Proof.
  intros Hi. unfold link.
  destruct (tab sm !! k) as [b|] eqn:Hk; [|exists (next a); by destruct a].
  destruct (next b) eqn:Hb; [exists (next a); by destruct a|]. simpl.
  destruct (decide (i = k)) as [->|Hne].
  - rewrite list_lookup_insert_eq by (by apply lookup_lt_Some in Hk).
    rewrite Hk in Hi. injection Hi as <-. by eexists.
  - rewrite list_lookup_insert_ne by done. exists (next a). by destruct a.
Qed.

Lemma link_frame k sm :
  length (tab (link k sm)) = length (tab sm)
  ∧ state (link k sm) = state sm ∧ target (link k sm) = target sm.
Proof.
  unfold link. destruct (tab sm !! k) as [b|]; [|done].
  destruct (next b); [done|]. simpl. by rewrite length_insert.
Qed.

Lemma linkAll_fields sm :
  length (tab (linkAll sm)) = length (tab sm)
  ∧ state (linkAll sm) = state sm
  ∧ target (linkAll sm) = target sm
  ∧ ∀ i a, tab sm !! i = Some a →
      ∃ nx, tab (linkAll sm) !! i
            = Some {| owner := owner a; aevent := aevent a;
                      action := action a; next := nx |}.
Proof.
  unfold linkAll. generalize (seq 0 (length (tab sm))). intros l.
  revert sm. induction l as [|k l IH]; intros sm; simpl.
  - repeat split. intros i a Hi. exists (next a). by destruct a.
  - destruct (IH (link k sm)) as (Hl & Hs & Ht & Hf).
    destruct (link_frame k sm) as (Hl' & Hs' & Ht').
    rewrite Hl, Hs, Ht. repeat split; try done.
    intros i a Hi. destruct (link_fields k sm i a Hi) as [nx Hnx].
    destruct (Hf _ _ Hnx) as [nx' Hnx']. by exists nx'.
Qed.

(** Linking, whether for the first time or again, changes nothing but
    [next] links and queue heads: the table keeps its length and every
    action its owner, event and target or handler, and the active state
    and the pending target are left alone. *)
Theorem linkAll_keeps_actions sm :
  length (tab (linkAll sm)) = length (tab sm)
  ∧ state (linkAll sm) = state sm
  ∧ target (linkAll sm) = target sm
  ∧ ∀ i a, tab sm !! i = Some a →
      ∃ nx, tab (linkAll sm) !! i
            = Some {| owner := owner a; aevent := aevent a;
                      action := action a; next := nx |}.
Proof. apply linkAll_fields. Qed.

(** An action added to a machine that is not started yet is linked in
    front of the older actions of its owner, so it is the one that
    resolves its event there, whatever was declared for that state
    before. *)
Theorem add_action_overrides sm owner_ event_ action_ :
  unlinked sm = true →
  let sm' := linkAll (add_action owner_ event_ action_ sm) in
  lookup sm' owner_ event_ = Some (length (tab sm))
  ∧ action <$> tab sm' !! length (tab sm) = Some action_.
Proof.
  intros Hfresh sm'.
  set (a := {| owner := owner_; aevent := event_; action := action_;
               next := None |}).
  assert (unlinked (add_action owner_ event_ action_ sm) = true) as Hfresh'.
  { unfold unlinked in *. simpl. apply andb_prop in Hfresh as [H1 H2].
    rewrite forallb_app, H1, H2. reflexivity. }
  assert (tab (add_action owner_ event_ action_ sm) !! length (tab sm)
          = Some a) as Hnew.
  { simpl. by rewrite lookup_app_r, Nat.sub_diag. }
  destruct (linkAll_fields (add_action owner_ event_ action_ sm))
    as (_ & _ & _ & Hfields).
  destruct (Hfields _ _ Hnew) as [nx Hnx]. fold sm' in Hnx.
  split; [|by rewrite Hnx].
  unfold lookup. unfold sm'. rewrite linkAll_bindings by done.
  unfold declared. simpl tab. rewrite length_app. simpl length.
  rewrite Nat.add_1_r, declared_upto_S.
  rewrite decide_True by (simpl; by rewrite lookup_app_r, Nat.sub_diag).
  rewrite rev_unit. simpl. fold sm'. unfold matches. rewrite Hnx. simpl.
  by rewrite bool_decide_eq_true_2 by (by left).
Qed.

Lemma filter_ext_in (P Q : nat → Prop) `{∀ x, Decision (P x)}
    `{∀ x, Decision (Q x)} (l : list nat) :
  (∀ x, x ∈ l → P x ↔ Q x) → filter P l = filter Q l.
Proof.
  induction l as [|x l IH]; intros Hl; [done|].
  rewrite !filter_cons.
  assert (P x ↔ Q x) as Hx by (apply Hl; left).
  rewrite IH by (intros y Hy; apply Hl; by right).
  destruct (decide (P x)), (decide (Q x)); tauto.
Qed.

Lemma filter_fmap_in (P : nat → Prop) `{∀ x, Decision (P x)}
    (f : nat → nat) (l : list nat) :
  filter P (f <$> l) = f <$> filter (λ x, P (f x)) l.
Proof.
  induction l as [|x l IH]; [done|].
  rewrite fmap_cons, !filter_cons, IH. by destruct (decide (P (f x))).
Qed.

Lemma declared_app tb1 tb2 s :
  declared (tb1 ++ tb2) s
  = declared tb1 s ++ ((λ i, length tb1 + i) <$> declared tb2 s).
Proof.
  unfold declared, declared_upto.
  rewrite length_app, seq_app, filter_app. f_equal.
  - apply filter_ext_in. intros i Hi. apply elem_of_seq in Hi.
    by rewrite lookup_app_l by lia.
  - simpl. rewrite <- (Nat.add_0_r (length tb1)) at 1.
    rewrite <- fmap_add_seq, filter_fmap_in. f_equal.
    apply filter_ext_in. intros i _. simpl.
    by rewrite lookup_app_r, Nat.add_comm, Nat.add_sub by lia.
Qed.

(** Actions added with [add] to a machine that is not started yet end
    up in front: after linking, the list of a state holds the added
    actions of that state, last one first, and behind them the list the
    state would have had without the addition. *)
Theorem add_in_front sm tb s :
  unlinked sm = true →
  forallb (λ a, bool_decide (next a = None)) tb = true →
  bindings (linkAll (add tb sm)) s
  = rev ((λ i, length (tab sm) + i) <$> declared tb s)
    ++ bindings (linkAll sm) s.
Proof.
  intros Hfresh Htb.
  assert (unlinked (add tb sm) = true) as Hfresh'.
  { unfold unlinked in *. simpl. apply andb_prop in Hfresh as [H1 H2].
    by rewrite forallb_app, H1, H2, Htb. }
  rewrite !linkAll_bindings by done. simpl tab.
  by rewrite declared_app, rev_app_distr.
Qed.


(** *** Lists with a cycle *)

(** The loop of [getAction], one step at a time. *)
Lemma getAction_loop_hit tb fuel i a event_ :
  tb !! i = Some a → aevent a = event_ ∨ aevent a = Event.ALL →
  getAction_loop fuel tb (Some i) event_ = Ret (Some i).
Proof.
  intros Ha He.
  assert (¬ (aevent a ≠ event_ ∧ aevent a ≠ Event.ALL)) as Hn
    by (intros [? ?]; by destruct He).
  destruct fuel; simpl; by rewrite Ha, decide_False.
Qed.

Lemma getAction_loop_skip tb fuel i a event_ :
  tb !! i = Some a → aevent a ≠ event_ → aevent a ≠ Event.ALL →
  getAction_loop (S fuel) tb (Some i) event_
  = getAction_loop fuel tb (next a) event_.
Proof. intros Ha He Hall. simpl. by rewrite Ha, decide_True. Qed.

(** On a list that comes back to itself without a binding for the event
    the loop of [getAction] never ends. *)
Lemma getAction_loop_cycle tb (P : nat → Prop) event_ :
  (∀ i, P i → ∃ a j, tb !! i = Some a
                     ∧ aevent a ≠ event_ ∧ aevent a ≠ Event.ALL
                     ∧ next a = Some j ∧ P j) →
  ∀ fuel i, P i → getAction_loop fuel tb (Some i) event_ = Fault OutOfFuel.
Proof.
  intros Hcyc fuel. induction fuel as [|fuel IH]; intros i Hi;
    destruct (Hcyc i Hi) as (a & j & Ha & He & Hall & Hn & Hj);
    simpl; rewrite Ha, decide_True by done; [done|].
  rewrite Hn. by apply IH.
Qed.

End HeapFacts.

(** ** The engine *)

Section EngineFacts.

Context {Payload : Type}.
Variable emptyMessage : Message Payload.
Variable parents : list (option State).
Variable NDEBUG : bool.
Hypothesis Htree : tree_ok parents = true.

#[local] Existing Instance M_ret.
#[local] Existing Instance M_bind.

Implicit Types (sm : StateMachine Payload) (msg : Message Payload).

Lemma after_nil {A}
    (r : result (A * StateMachine Payload * list (Obs Payload))) :
  after [] r = r.
Proof. by destruct r as [[[??]?]|]. Qed.

Lemma after_after {A} t1 t2
    (r : result (A * StateMachine Payload * list (Obs Payload))) :
  after t1 (after t2 r) = after (t1 ++ t2) r.
Proof. destruct r as [[[??]?]|]; simpl; [|done]. by rewrite (assoc_L (++)). Qed.

Lemma bind_Ret {A B} (c : M Payload A) (k : A → M Payload B) sm a sm1 t1 :
  c sm = Ret (a, sm1, t1) → (c ≫= k) sm = after t1 (k a sm1).
Proof. intros H. unfold mbind, M_bind. by rewrite H. Qed.

Lemma bind_Fault {A B} (c : M Payload A) (k : A → M Payload B) sm e :
  c sm = Fault e → (c ≫= k) sm = Fault e.
Proof. intros H. unfold mbind, M_bind. by rewrite H. Qed.

Lemma callHandler_None fuel msg sm :
  callHandler fuel None msg sm = Ret (None, sm, []).
Proof. reflexivity. Qed.

Lemma callHandler_spec fuel s msg sm :
  heap_ok sm = true → length (tab sm) ≤ fuel →
  callHandler fuel (Some s) msg sm =
    Ret (match resolved sm s msg with
         | None => None
         | Some (VState t) => Some t
         | Some (VHandler _) => Some s
         end,
         match resolved sm s msg with
         | Some (VHandler handler_) =>
             match handler_ msg with
             | Some t => setTarget sm (Some t)
             | None => sm
             end
         | _ => sm
         end,
         fire sm msg s).
Proof.
  intros Hok Hf. unfold callHandler.
  rewrite (bind_Ret _ _ sm sm sm []) by done. rewrite after_nil.
  rewrite (bind_Ret _ _ sm (lookup sm s (event msg)) sm []).
  2:{ unfold lift. by rewrite getAction_lookup. }
  rewrite after_nil. unfold resolved, fire.
  destruct (lookup sm s (event msg)) as [i|] eqn:Hi; [|done].
  destruct (lookup_Some_tab _ _ _ _ Hi) as [a Ha]. rewrite Ha.
  unfold visit. destruct (action a) as [t|h]; [done|].
  unfold mbind, M_bind, emit, get, put, mret, M_ret. simpl.
  destruct (h msg); done.
Qed.

Lemma resolveTarget_None fuel msg sm :
  resolveTarget fuel None msg sm = Ret (None, setTarget sm None, []).
Proof. reflexivity. Qed.

Lemma resolveTarget_spec fuel s msg sm :
  heap_ok sm = true → length (tab sm) ≤ fuel →
  resolveTarget fuel (Some s) msg sm =
    Ret (Some <$> request sm s msg,
         setTarget sm (requested sm s msg),
         fire sm msg s).
Proof.
  intros Hok Hf. unfold resolveTarget.
  rewrite (bind_Ret _ _ sm sm sm []) by done. rewrite after_nil.
  rewrite (bind_Ret _ _ sm tt (setTarget sm (Some s)) []) by done.
  rewrite after_nil.
  erewrite bind_Ret; [|by apply callHandler_spec].
  unfold request, requested.
  change (resolved (setTarget sm (Some s)) s msg) with (resolved sm s msg).
  change (fire (setTarget sm (Some s)) msg s) with (fire sm msg s).
  destruct (resolved sm s msg) as [[t|h]|]; simpl.
  - destruct (decide (Some t = Some s)) as [[= ->]|Hne]; simpl;
      by rewrite app_nil_r.
  - rewrite decide_True by done.
    destruct (h msg); simpl; by rewrite app_nil_r.
  - by rewrite app_nil_r.
Qed.

Lemma callAction_with_spec tr fuel s msg sm :
  heap_ok sm = true → length (tab sm) ≤ fuel →
  callAction_with parents NDEBUG tr fuel (Some s) msg sm =
    match request sm s msg with
    | None => Ret (false, setTarget sm (Some s), [])
    | Some t =>
        if decide (t = s) then
          Ret (true, setTarget sm (requested sm s msg), fire sm msg s)
        else
          after (fire sm msg s)
            ((assertChild parents NDEBUG msg (Some t) (Some s);;
              tr (Some t) msg;; mret true)
               (setTarget sm (requested sm s msg)))
    end.
Proof.
  intros Hok Hf. unfold callAction_with.
  erewrite bind_Ret; [|by apply resolveTarget_spec].
  destruct (request sm s msg) as [t|] eqn:Ht; simpl.
  - destruct (decide (Some t = Some s)) as [[= ->]|Hne].
    + rewrite decide_True by done. simpl. by rewrite app_nil_r.
    + rewrite decide_False by congruence. done.
  - unfold request in Ht. unfold requested, fire, resolved in *.
    destruct (lookup sm s (event msg)) as [i|]; [|done].
    destruct (tab sm !! i) as [a|]; [|done].
    destruct (action a) as [?|h]; [done|]. by destruct (h msg).
Qed.

Lemma setTarget_id sm : setTarget sm (target sm) = sm.
Proof. by destruct sm. Qed.

Lemma callHandler_frame fuel s msg sm :
  heap_ok sm = true → length (tab sm) ≤ fuel →
  ∃ v tg, callHandler fuel (Some s) msg sm
          = Ret (v, setTarget sm tg, fire sm msg s).
Proof.
  intros Hok Hf. rewrite callHandler_spec by done.
  destruct (resolved sm s msg) as [[t|h]|].
  - eexists _, (target sm). by rewrite setTarget_id.
  - destruct (h msg) as [t|].
    + by eexists _, _.
    + eexists _, (target sm). by rewrite setTarget_id.
  - eexists _, (target sm). by rewrite setTarget_id.
Qed.

Lemma exit_loop_eq n fuel r msg sm :
  exit_loop parents n fuel r msg sm =
    if decide (state sm = r) then Ret (tt, sm, [])
    else
      match n with
      | O => Fault OutOfFuel
      | S n' =>
          match callHandler fuel (state sm) (withEvent msg Event.Exit) sm with
          | Fault e => Fault e
          | Ret (_, sm1, t1) =>
              after t1 (exit_loop parents n' fuel r msg
                          (setState sm1 (getPrev parents (state sm1))))
          end
      end.
Proof.
  destruct n; simpl; unfold mbind, M_bind, get; simpl;
    destruct (decide (state sm = r)); try done.
  destruct (callHandler _ _ _ sm) as [[[v sm1] t1]|]; [|done].
  unfold put. simpl.
  by destruct (exit_loop _ _ _ _ _ _) as [[[??]?]|].
Qed.

Lemma exit_loop_spec ex sm lr r n fuel msg :
  chain parents (state sm) (ex ++ lr) → chain parents r lr →
  heap_ok sm = true → length ex ≤ n → length (tab sm) ≤ fuel →
  ∃ tg, exit_loop parents n fuel r msg sm
        = Ret (tt, setState (setTarget sm tg) r,
               flat_map (fire sm (withEvent msg Event.Exit)) ex).
Proof.
  revert sm n. induction ex as [|s ex IH]; intros sm n Hs Hr Hok Hn Hf.
  - pose proof (chain_inj _ _ _ _ Hs Hr) as Heq.
    exists (target sm). rewrite exit_loop_eq, decide_True by done.
    destruct sm as [st tg tb q]; simpl in *; subst; reflexivity.
  - simpl in Hs, Hn. inversion Hs as [|s' l' Hp Hst]; subst.
    assert (state sm ≠ r) as Hne.
    { intros <-. rewrite <- Hst in Hr.
      eapply (chain_app_ne parents s ex lr); [exact Hr|by constructor]. }
    destruct n as [|n]; [lia|].
    destruct (callHandler_frame fuel s (withEvent msg Event.Exit) sm Hok Hf)
      as (v & tg1 & Hcall).
    destruct (IH (setState (setTarget sm tg1) (parent parents s)) n)
      as [tg Hloop]; [done|done|done|lia|done|].
    exists tg. rewrite exit_loop_eq, decide_False by done.
    rewrite <- Hst, Hcall. simpl getPrev. rewrite <- Hst. simpl getPrev.
    by rewrite Hloop.
Qed.

Lemma entry_loop_eq n fuel next_ msg sm :
  entry_loop parents n fuel next_ msg sm =
    if decide (state sm = next_) then Ret (tt, sm, [])
    else
      match n with
      | O => Fault OutOfFuel
      | S n' =>
          match getNext parents fuel (state sm) next_ with
          | Fault e => Fault e
          | Ret s =>
              match callHandler fuel s (withEvent msg Event.Entry)
                      (setState sm s) with
              | Fault e => Fault e
              | Ret (_, sm1, t1) =>
                  after t1 (entry_loop parents n' fuel next_ msg sm1)
              end
          end
      end.
Proof.
  destruct n; simpl; unfold mbind, M_bind, get; simpl;
    destruct (decide (state sm = next_)); try done.
  unfold lift. destruct (getNext _ _ _ _) as [s|]; [|done].
  unfold put. simpl.
  destruct (callHandler _ _ _ _) as [[[v sm1] t1]|]; [|done].
  by destruct (entry_loop _ _ _ _ _ _) as [[[??]?]|].
Qed.

Lemma entry_loop_spec en sm lr next_ n fuel msg :
  chain parents (state sm) lr → chain parents next_ (en ++ lr) →
  heap_ok sm = true → length en ≤ n →
  length en ≤ fuel → length (tab sm) ≤ fuel →
  ∃ tg, entry_loop parents n fuel next_ msg sm
        = Ret (tt, setState (setTarget sm tg) next_,
               flat_map (fire sm (withEvent msg Event.Entry)) (rev en)).
Proof.
  revert sm lr n. induction en as [|c en IH] using rev_ind;
    intros sm lr n Hs Hn Hok Hlen Hfn Hf.
  - pose proof (chain_inj _ _ _ _ Hs Hn) as Heq.
    exists (target sm). rewrite entry_loop_eq, decide_True by done.
    destruct sm as [st tg tb q]; simpl in *; subst; reflexivity.
  - rewrite length_app in Hlen, Hfn. simpl in Hlen, Hfn.
    rewrite <- (assoc_L (++)) in Hn. simpl in Hn.
    assert (state sm ≠ next_) as Hne.
    { intros <-. pose proof (chain_det _ _ _ _ Hs Hn) as Heq.
      apply (f_equal length) in Heq. rewrite length_app in Heq.
      simpl in Heq. lia. }
    destruct n as [|n]; [lia|].
    destruct (chain_suffix _ _ _ _ Hn) as [y Hy].
    inversion Hy as [|c' l' Hp]; subst.
    pose proof (chain_inj _ _ _ _ Hs Hp) as Hpar.
    rewrite entry_loop_eq, decide_False by done.
    rewrite (getNext_spec _ _ _ _ _ _ _ Hn Hs) by lia.
    destruct (callHandler_frame fuel c (withEvent msg Event.Entry)
                (setState sm (Some c))) as (v & tg1 & Hcall); [done|done|].
    rewrite Hcall.
    destruct (IH (setTarget (setState sm (Some c)) tg1) (c :: lr) n)
      as [tg Hloop]; [done|done|done|lia|lia|done|].
    rewrite Hloop. exists tg. simpl. rewrite rev_app_distr. simpl. done.
Qed.

Lemma callAction_None fuel msg sm :
  callAction parents NDEBUG fuel None msg sm
  = Ret (false, setTarget sm None, []).
Proof. reflexivity. Qed.

Lemma callAction_setTarget fuel x msg sm t :
  callAction parents NDEBUG fuel x msg (setTarget sm t)
  = callAction parents NDEBUG fuel x msg sm.
Proof. reflexivity. Qed.

Lemma transition_eq fuel next_ msg sm :
  transition parents NDEBUG (S fuel) next_ msg sm =
    match getRoot parents fuel (state sm) next_ with
    | Fault e => Fault e
    | Ret root_ =>
        match exit_loop parents fuel fuel root_ msg sm with
        | Fault e => Fault e
        | Ret (_, sm1, t1) =>
            match entry_loop parents fuel fuel next_ msg sm1 with
            | Fault e => Fault e
            | Ret (_, sm2, t2) =>
                after (t1 ++ t2)
                  (forget (callAction parents NDEBUG fuel (state sm2)
                             (withEvent msg Event.Init) sm2))
            end
        end
    end.
Proof.
  simpl. unfold mbind at 1, M_bind at 1, get. simpl.
  unfold mbind at 1, M_bind at 1, lift.
  destruct (getRoot _ _ _ _) as [root_|]; [|done].
  unfold mbind at 1, M_bind at 1.
  destruct (exit_loop _ _ _ _ _ _) as [[[[] sm1] t1]|]; [|done].
  unfold mbind at 1, M_bind at 1.
  destruct (entry_loop _ _ _ _ _ _) as [[[[] sm2] t2]|]; [|done].
  unfold mbind at 1, M_bind at 1. simpl.
  unfold mbind at 1, M_bind at 1. unfold callAction.
  destruct (callAction_with _ _ _ _ _ _ _) as [[[b sm3] t3]|]; simpl; [|done].
  by rewrite app_nil_r, (assoc_L (++)).
Qed.

Lemma transition_decomposed fuel next_ msg sm :
  heap_ok sm = true → S (length parents) + length (tab sm) ≤ fuel →
  ∃ ex en lr r tg,
    path parents (state sm) = ex ++ lr ∧ path parents next_ = en ++ lr
    ∧ (∀ c, c ∈ ex → c ∉ en)
    ∧ chain parents r lr
    ∧ getRoot parents fuel (state sm) next_ = Ret r
    ∧ transition parents NDEBUG (S fuel) next_ msg sm =
        after (flat_map (fire sm (withEvent msg Event.Exit)) ex
               ++ flat_map (fire sm (withEvent msg Event.Entry)) (rev en))
          (forget (callAction parents NDEBUG fuel next_
                     (withEvent msg Event.Init)
                     (setState (setTarget sm tg) next_))).
Proof using Htree.
  intros Hok Hf.
  destruct (getRoot_spec parents Htree (state sm) next_ fuel)
    as (ex & en & lr & r & Hex & Hen & Hr & Hdisj & Hroot); [lia|].
  pose proof (path_chain parents Htree (state sm)) as Hs.
  pose proof (path_chain parents Htree next_) as Hn.
  pose proof (chain_length parents Htree _ _ Hs) as Hls.
  pose proof (chain_length parents Htree _ _ Hn) as Hln.
  rewrite Hex in Hs, Hls. rewrite Hen in Hn, Hln.
  rewrite length_app in Hls, Hln.
  destruct (exit_loop_spec ex sm lr r fuel fuel msg) as [tg1 Hexit];
    [done|done|done|lia|lia|].
  destruct (entry_loop_spec en (setState (setTarget sm tg1) r) lr next_
              fuel fuel msg) as [tg2 Hentry];
    [done|done|done|lia|lia|simpl; lia|].
  exists ex, en, lr, r, tg2. repeat split; try done.
  by rewrite transition_eq, Hroot, Hexit, Hentry.
Qed.

Lemma split_unique (la lb ex en lr ex' en' lr' : list nat) :
  la = ex ++ lr → lb = en ++ lr → la = ex' ++ lr' → lb = en' ++ lr' →
  (∀ c, c ∈ ex → c ∉ en) → (∀ c, c ∈ ex' → c ∉ en') →
  ex = ex' ∧ en = en' ∧ lr = lr'.
Proof.
  intros -> -> Ha Hb Hd Hd'.
  apply app_eq_app in Ha as [m [[-> ->]|[-> ->]]].
  - rewrite (assoc_L (++)) in Hb. apply (inj (λ l, l ++ lr)) in Hb as ->.
    destruct m as [|x m].
    + by rewrite !app_nil_r.
    + exfalso. apply (Hd x); set_solver.
  - rewrite (assoc_L (++)) in Hb. apply (inj (λ l, l ++ lr')) in Hb as <-.
    destruct m as [|x m].
    + by rewrite !app_nil_r.
    + exfalso. apply (Hd' x); set_solver.
Qed.

Lemma transition_spec fuel next_ msg sm ex en lr :
  heap_ok sm = true → S (length parents) + length (tab sm) ≤ fuel →
  path parents (state sm) = ex ++ lr → path parents next_ = en ++ lr →
  (∀ c, c ∈ ex → c ∉ en) →
  ∃ tg,
    transition parents NDEBUG (S fuel) next_ msg sm =
      after (flat_map (fire sm (withEvent msg Event.Exit)) ex
             ++ flat_map (fire sm (withEvent msg Event.Entry)) (rev en))
        (forget (callAction parents NDEBUG fuel next_
                   (withEvent msg Event.Init)
                   (setState (setTarget sm tg) next_))).
Proof using Htree.
  intros Hok Hf Hex Hen Hdisj.
  destruct (transition_decomposed fuel next_ msg sm Hok Hf)
    as (ex' & en' & lr' & r & tg & Hex' & Hen' & Hdisj' & _ & _ & Htr).
  destruct (split_unique _ _ _ _ _ _ _ _ Hex Hen Hex' Hen' Hdisj Hdisj')
    as (-> & -> & ->).
  by exists tg.
Qed.

Lemma path_Some s : path parents (Some s) = s :: path parents (parent parents s).
Proof using Htree.
  symmetry. apply (chain_path parents Htree). constructor.
  apply (path_chain parents Htree).
Qed.

Lemma path_NoDup x : NoDup (path parents x).
Proof using Htree.
  pose proof (path_chain parents Htree x) as Hc.
  apply NoDup_alt. intros i j c Hi Hj.
  pose proof (chain_same_depth parents _ _ _ _ _ _ _ Hc Hc Hi Hj).
  apply lookup_lt_Some in Hi, Hj. lia.
Qed.

(** *** Bubbling *)

Lemma eventHandler_loop_eq n fuel s msg sm :
  eventHandler_loop parents NDEBUG (S n) fuel (Some s) msg sm =
    match callAction parents NDEBUG fuel (Some s) msg sm with
    | Fault e => Fault e
    | Ret (handled, sm1, t1) =>
        if handled then Ret (tt, sm1, t1)
        else after t1 (eventHandler_loop parents NDEBUG n fuel
                         (parent parents s) msg sm1)
    end.
Proof.
  simpl. unfold mbind at 1, M_bind at 1.
  destruct (callAction _ _ _ _ _ _) as [[[[] sm1] t1]|]; simpl; try done.
  by rewrite app_nil_r.
Qed.

Lemma request_lookup_None sm s msg :
  lookup sm s (event msg) = None → request sm s msg = None.
Proof. intros H. unfold request, resolved. by rewrite H. Qed.

Lemma request_lookup_Some sm s msg :
  is_Some (lookup sm s (event msg)) → is_Some (request sm s msg).
Proof.
  intros [i Hi]. unfold request, resolved. rewrite Hi.
  destruct (lookup_Some_tab _ _ _ _ Hi) as [a ->].
  destruct (action a) as [t|h]; [done|]. by destruct (h msg).
Qed.

Lemma callAction_unhandled fuel s msg sm :
  heap_ok sm = true → length (tab sm) ≤ fuel →
  lookup sm s (event msg) = None →
  callAction parents NDEBUG fuel (Some s) msg sm
  = Ret (false, setTarget sm (Some s), []).
Proof.
  intros Hok Hf Hl. unfold callAction.
  rewrite callAction_with_spec by done. by rewrite request_lookup_None.
Qed.

Lemma callAction_handled fuel s msg sm handled sm1 t1 :
  heap_ok sm = true → length (tab sm) ≤ fuel →
  is_Some (lookup sm s (event msg)) →
  callAction parents NDEBUG fuel (Some s) msg sm = Ret (handled, sm1, t1) →
  handled = true.
Proof.
  intros Hok Hf Hl. unfold callAction.
  rewrite callAction_with_spec by done.
  destruct (request_lookup_Some _ _ _ Hl) as [t ->].
  destruct (decide (t = s)); [congruence|].
  unfold mbind, M_bind.
  destruct (assertChild _ _ _ _ _ _) as [[[[] sm2] t2]|]; [|done].
  destruct (transition _ _ _ _ _ _) as [[[[] sm3] t3]|]; [|done].
  simpl. congruence.
Qed.

Lemma bubble_unhandled l x n fuel msg sm :
  chain parents x l →
  Forall (λ s, lookup sm s (event msg) = None) l →
  heap_ok sm = true → length l ≤ n → length (tab sm) ≤ fuel →
  ∃ tg, eventHandler_loop parents NDEBUG n fuel x msg sm
        = Ret (tt, setTarget sm tg, []).
Proof.
  intros Hc. revert n sm. induction Hc as [|s l Hl IH];
    intros n sm Hall Hok Hn Hf.
  - exists (target sm). rewrite setTarget_id. by destruct n.
  - simpl in Hn. destruct n as [|n]; [lia|].
    apply Forall_cons in Hall as [Hs Hall].
    rewrite eventHandler_loop_eq, callAction_unhandled by done.
    destruct (IH n (setTarget sm (Some s))) as [tg Htg];
      [done|done|lia|done|].
    rewrite Htg. by exists tg.
Qed.

Lemma bubble_handled below c rest x n fuel msg sm :
  chain parents x (below ++ c :: rest) →
  Forall (λ s, lookup sm s (event msg) = None) below →
  is_Some (lookup sm c (event msg)) →
  heap_ok sm = true → length below < n → length (tab sm) ≤ fuel →
  eventHandler_loop parents NDEBUG n fuel x msg sm
  = forget (callAction parents NDEBUG fuel (Some c) msg sm).
Proof.
  revert x n sm. induction below as [|s below IH];
    intros x n sm Hc Hall Hsome Hok Hn Hf.
  - inversion Hc; subst. destruct n as [|n]; [simpl in Hn; lia|].
    rewrite eventHandler_loop_eq.
    destruct (callAction _ _ _ _ _ _) as [[[handled sm1] t1]|] eqn:Hcall;
      [|done].
    by rewrite (callAction_handled _ _ _ _ _ _ _ Hok Hf Hsome Hcall).
  - inversion Hc; subst. simpl in Hn. destruct n as [|n]; [lia|].
    apply Forall_cons in Hall as [Hs Hall].
    rewrite eventHandler_loop_eq, callAction_unhandled by done.
    rewrite (IH _ n (setTarget sm (Some s))); [|done|done|done|done|lia|done].
    rewrite callAction_setTarget. by rewrite after_nil.
Qed.

(** *** Default descent *)

Lemma request_same sm sm' s msg :
  tab sm = tab sm' → queue sm = queue sm' →
  request sm s msg = request sm' s msg.
Proof.
  intros Ht Hq. unfold request, resolved, lookup, bindings.
  by rewrite Ht, Hq.
Qed.

Lemma descends_same sm sm' msg s leaf :
  tab sm = tab sm' → queue sm = queue sm' →
  descends parents sm msg s leaf → descends parents sm' msg s leaf.
Proof.
  intros Ht Hq H. induction H as [s H|s t leaf Hr Hne Hp _ IH].
  - apply descends_stop. by rewrite <- (request_same sm sm').
  - apply (descends_step _ _ _ s t); try done.
    by rewrite <- (request_same sm sm').
Qed.

Lemma setState_same sm tg x :
  state sm = x → setTarget sm tg = setState (setTarget sm tg) x.
Proof. destruct sm. simpl. by intros ->. Qed.

Lemma descent n s fuel sm msg :
  NDEBUG = false → withEvent msg Event.Init = msg →
  heap_ok sm = true → state sm = Some s →
  length parents ≤ s + n →
  S (length parents) + length (tab sm) + n ≤ fuel →
  callAction parents NDEBUG fuel (Some s) msg sm = Fault AssertionFailed
  ∨ ∃ leaf tg handled tr,
      callAction parents NDEBUG fuel (Some s) msg sm
      = Ret (handled, setState (setTarget sm tg) (Some leaf), tr)
      ∧ descends parents sm msg s leaf.
Proof using Htree.
  intros HN Hmsg. revert s fuel sm.
  assert (event msg = Event.Init) as Hev by (by rewrite <- Hmsg).
  induction n as [|n IH]; intros s fuel sm Hok Hst Hs Hf.
  all: unfold callAction; rewrite callAction_with_spec by (done || lia).
  all: destruct (request sm s msg) as [t|] eqn:Hreq;
    [|right; exists s, (Some s), false, []; split;
      [by rewrite <- (setState_same sm _ _ Hst)
      |apply descends_stop; by left]].
  all: destruct (decide (t = s)) as [->|Hne];
    [right; exists s, (requested sm s msg), true, (fire sm msg s); split;
      [by rewrite <- (setState_same sm _ _ Hst)
      |apply descends_stop; by right]|].
  all: assert (assertChild parents NDEBUG msg (Some t) (Some s)
                 (setTarget sm (requested sm s msg))
               = if decide (parent parents t = Some s)
                 then Ret (tt, setTarget sm (requested sm s msg), [])
                 else Fault AssertionFailed) as Hassert
    by (unfold assertChild; rewrite HN, Hev; simpl;
        by destruct (decide (parent parents t = Some s))).
  all: destruct (decide (parent parents t = Some s)) as [Hp|Hp];
    [|left; by rewrite (bind_Fault _ _ _ _ Hassert)].
  all: pose proof (parent_lt parents Htree _ _ Hp) as [Hlt Hin].
  - lia.
  - destruct fuel as [|fuel]; [lia|].
    rewrite (bind_Ret _ _ _ _ _ _ Hassert).
    destruct (transition_spec fuel (Some t) msg
                (setTarget sm (requested sm s msg)) [] [t]
                (path parents (Some s))) as [tg Htr].
    { done. } { simpl. lia. } { simpl. by rewrite Hst. }
    { by rewrite path_Some, Hp. } { intros c Hc. by apply elem_of_nil in Hc. }
    rewrite Hmsg in Htr.
    destruct (IH t fuel
                (setState (setTarget (setTarget sm (requested sm s msg)) tg)
                   (Some t))) as [Hfault|(leaf & tg' & h & tr & Hret & Hd)];
      [done|done|lia|simpl; lia| |].
    + left. unfold mbind at 1, M_bind at 1. by rewrite Htr, Hfault.
    + right. exists leaf, tg', true.
      unfold mbind at 1, M_bind at 1. rewrite Htr, Hret. simpl.
      eexists. split; [reflexivity|].
      apply (descends_step _ _ _ s t); try done.
      eapply descends_same; [| |exact Hd]; reflexivity.
Qed.

Lemma assertChild_child msg t s sm :
  parent parents t = Some s →
  assertChild parents NDEBUG msg (Some t) (Some s) sm = Ret (tt, sm, []).
Proof.
  intros Hp. unfold assertChild. destruct NDEBUG; [done|].
  destruct (Event.User <=? event msg)%N; [done|]. by rewrite decide_True.
Qed.

Lemma descent_follow sm msg s leaf :
  descends parents sm msg s leaf →
  ∀ fuel sm',
    withEvent msg Event.Init = msg →
    tab sm' = tab sm → queue sm' = queue sm →
    heap_ok sm' = true → state sm' = Some s →
    S (length parents) + length (tab sm') + (length parents - s) ≤ fuel →
    ∃ tg handled tr,
      callAction parents NDEBUG fuel (Some s) msg sm'
      = Ret (handled, setState (setTarget sm' tg) (Some leaf), tr).
Proof using Htree.
  induction 1 as [s Hstop|s t leaf Hreq Hne Hp _ IH];
    intros fuel sm' Hmsg Htab Hqueue Hok Hst Hf.
  all: unfold callAction; rewrite callAction_with_spec by (done || lia).
  all: rewrite (request_same sm' sm) by done.
  - destruct Hstop as [-> | ->].
    + exists (Some s), false, []. by rewrite <- (setState_same sm' _ _ Hst).
    + rewrite decide_True by done.
      exists (requested sm' s msg), true, (fire sm' msg s).
      by rewrite <- (setState_same sm' _ _ Hst).
  - rewrite Hreq, decide_False by done.
    pose proof (parent_lt parents Htree _ _ Hp) as [Hlt Hin].
    destruct fuel as [|fuel]; [lia|].
    rewrite (bind_Ret _ _ _ _ _ _ (assertChild_child msg t s _ Hp)).
    destruct (transition_spec fuel (Some t) msg
                (setTarget sm' (requested sm' s msg)) [] [t]
                (path parents (Some s))) as [tg Htr].
    { done. } { simpl. lia. } { simpl. by rewrite Hst. }
    { by rewrite path_Some, Hp. } { intros c Hc. by apply elem_of_nil in Hc. }
    rewrite Hmsg in Htr.
    destruct (IH fuel
                (setState (setTarget (setTarget sm' (requested sm' s msg)) tg)
                   (Some t))) as (tg' & h & tr & Hret);
      [done|done|done|done|done|simpl; lia|].
    exists tg', true. unfold mbind at 1, M_bind at 1.
    rewrite Htr, Hret. simpl. by eexists.
Qed.

Lemma descends_leaf sm msg s leaf :
  descends parents sm msg s leaf →
  request sm leaf msg = None ∨ request sm leaf msg = Some leaf.
Proof. induction 1; done. Qed.

(** *** The public operations *)

Lemma assert_true (c : bool) sm :
  c = true → assert NDEBUG c sm = Ret (tt, sm, []).
Proof. intros ->. unfold assert. by destruct NDEBUG. Qed.

Lemma message_eq fuel msg sm :
  state sm ≠ None →
  event msg = Event.Stop ∨ (Event.User ≤ event msg)%N →
  message emptyMessage parents NDEBUG fuel msg sm =
    if (Event.User <=? event msg)%N then
      eventHandler_loop parents NDEBUG fuel fuel (state sm) msg sm
    else transition parents NDEBUG fuel None emptyMessage sm.
Proof.
  intros Hst Hev. unfold message.
  rewrite (bind_Ret _ _ sm sm sm []) by done. rewrite after_nil.
  rewrite (bind_Ret _ _ sm tt sm [])
    by (apply assert_true; by apply bool_decide_eq_true).
  rewrite after_nil.
  rewrite (bind_Ret _ _ sm tt sm [])
    by (apply assert_true; by apply bool_decide_eq_true).
  rewrite after_nil.
  destruct (Event.User <=? event msg)%N eqn:Hu.
  - unfold eventHandler. rewrite (bind_Ret _ _ sm sm sm []) by done.
    by rewrite after_nil.
  - destruct Hev as [->|Hev]; [done|]. apply N.leb_le in Hev. congruence.
Qed.

Lemma start_eq fuel root sm :
  state sm = None → parent parents root = None →
  start emptyMessage parents NDEBUG fuel root sm
  = transition parents NDEBUG fuel (Some root) emptyMessage (linkAll sm).
Proof.
  intros Hst Hroot. unfold start.
  rewrite (bind_Ret _ _ sm sm sm []) by done. rewrite after_nil.
  rewrite (bind_Ret _ _ sm tt sm [])
    by (apply assert_true; by apply bool_decide_eq_true).
  rewrite after_nil.
  rewrite (bind_Ret _ _ sm tt sm [])
    by (apply assert_true; apply bool_decide_eq_true; congruence).
  rewrite after_nil, decide_True by done.
  rewrite (bind_Ret _ _ sm tt (linkAll sm) []) by done.
  by rewrite after_nil.
Qed.

(** *** The properties of the engine *)

(** On well-formed lists, as the first [start] leaves them, a transition
    from the active state to [next_] invokes the Exit handlers of the
    states from the old leaf up to, and without, the least common
    ancestor, leaf first; then the Entry handlers of the states below
    the least common ancestor down to the new leaf, root first; then it
    resolves Init at the new leaf.  Between two children of one parent
    only the Exit of the old and the Entry of the new child run: the
    parent is neither exited nor entered. *)
Theorem transition_cascades fuel next_ msg sm :
  heap_ok sm = true → S (length parents) + length (tab sm) ≤ fuel →
  (∃ ex en lr r tg,
      getRoot parents fuel (state sm) next_ = Ret r
      ∧ chain parents r lr
      ∧ path parents (state sm) = ex ++ lr
      ∧ path parents next_ = en ++ lr
      ∧ (∀ c, c ∈ ex → c ∉ en)
      ∧ transition parents NDEBUG (S fuel) next_ msg sm =
          after (flat_map (fire sm (withEvent msg Event.Exit)) ex
                 ++ flat_map (fire sm (withEvent msg Event.Entry)) (rev en))
            (forget (callAction parents NDEBUG fuel next_
                       (withEvent msg Event.Init)
                       (setState (setTarget sm tg) next_))))
  ∧ (∀ a b p,
        state sm = Some a → next_ = Some b → a ≠ b →
        parent parents a = Some p → parent parents b = Some p →
        ∃ tg,
          transition parents NDEBUG (S fuel) next_ msg sm =
            after (fire sm (withEvent msg Event.Exit) a
                   ++ fire sm (withEvent msg Event.Entry) b)
              (forget (callAction parents NDEBUG fuel next_
                         (withEvent msg Event.Init)
                         (setState (setTarget sm tg) next_)))).
Proof using Htree.
  intros Hok Hf. split.
  - destruct (transition_decomposed fuel next_ msg sm Hok Hf)
      as (ex & en & lr & r & tg & Hex & Hen & Hdisj & Hr & Hroot & Htr).
    by exists ex, en, lr, r, tg.
  - intros a b p Ha -> Hne Hpa Hpb.
    destruct (transition_spec fuel (Some b) msg sm [a] [b]
                (path parents (Some p)) Hok Hf) as [tg Htr].
    + by rewrite Ha, path_Some, Hpa.
    + by rewrite path_Some, Hpb.
    + intros c Hc. apply list_elem_of_singleton in Hc as ->.
      by rewrite list_elem_of_singleton.
    + exists tg. rewrite Htr. simpl. by rewrite !app_nil_r.
Qed.

(** On well-formed lists, as the first [start] leaves them, a user event
    is first resolved at the active leaf and passed to the parent only
    from a state without any binding for it: when
    the states [below] have no binding and [c] is the first state on
    the way up with a binding, exact or wildcard, the dispatch is the
    resolution at [c] and nothing else; when that binding is a handler
    that requests no transition, the handler runs once and the active
    state stays. *)
Theorem bubbling_first_binding fuel msg sm a below c rest :
  heap_ok sm = true → S (length parents) + length (tab sm) ≤ fuel →
  state sm = Some a → (Event.User ≤ event msg)%N →
  path parents (Some a) = below ++ c :: rest →
  Forall (λ s, lookup sm s (event msg) = None) below →
  is_Some (lookup sm c (event msg)) →
  message emptyMessage parents NDEBUG fuel msg sm
  = forget (callAction parents NDEBUG fuel (Some c) msg sm)
  ∧ (∀ i act handler_,
        lookup sm c (event msg) = Some i → tab sm !! i = Some act →
        action act = VHandler handler_ → handler_ msg = None →
        message emptyMessage parents NDEBUG fuel msg sm
        = Ret (tt, setTarget sm (Some c), [Fired c i msg])).
Proof using Htree.
  intros Hok Hf Hst Hev Hpath Hbelow Hc.
  pose proof (path_chain parents Htree (Some a)) as Hchain.
  pose proof (chain_length parents Htree _ _ Hchain) as Hlen.
  rewrite Hpath in Hchain, Hlen. rewrite length_app in Hlen. simpl in Hlen.
  assert (message emptyMessage parents NDEBUG fuel msg sm
          = forget (callAction parents NDEBUG fuel (Some c) msg sm)) as Hmsg.
  { rewrite message_eq; [|by rewrite Hst|by right].
    rewrite (proj2 (N.leb_le _ _) Hev), Hst.
    apply (bubble_handled below c rest); (done || lia). }
  split; [done|]. intros i act h Hi Hact Hh Hnone.
  rewrite Hmsg. unfold callAction. rewrite callAction_with_spec by (done || lia).
  unfold request, requested, resolved, fire. rewrite Hi, Hact, Hh, Hnone.
  by rewrite decide_True.
Qed.

(** On an active machine with well-formed lists, as the first [start]
    leaves them, the event Stop halts the engine: it resolves Exit at
    the old leaf and at every ancestor of
    it, each once and deepest first, enters nothing, and the closing
    resolution of Init does nothing; the active state is [nullptr]
    afterwards. *)
Theorem stop_unwinds fuel msg sm :
  heap_ok sm = true → S (S (length parents) + length (tab sm)) ≤ fuel →
  state sm ≠ None → event msg = Event.Stop →
  message emptyMessage parents NDEBUG fuel msg sm
  = Ret (tt, setState (setTarget sm None) None,
         flat_map (fire sm (withEvent emptyMessage Event.Exit))
           (path parents (state sm)))
  ∧ chain parents (state sm) (path parents (state sm))
  ∧ NoDup (path parents (state sm)).
Proof using Htree.
  intros Hok Hf Hst Hev.
  split; [|split; [apply (path_chain parents Htree)|apply path_NoDup]].
  rewrite message_eq by (done || by left). rewrite Hev. simpl.
  destruct fuel as [|fuel]; [lia|].
  destruct (transition_spec fuel None emptyMessage sm
              (path parents (state sm)) [] []) as [tg Htr];
    [done|lia|by rewrite app_nil_r|done|
     intros c _ Hc; by apply elem_of_nil in Hc|].
  rewrite Htr, callAction_None. simpl. by rewrite !app_nil_r.
Qed.

(** C4.  The first [start(Root)] of a machine whose actions are not
    linked yet, at a state Root without parent, returns with the active
    state at the end of the default descent from Root: the descent
    follows, child by child, the transition that resolving Init asks
    for -- a direct transition or the request of a handler -- and ends
    at a state where resolving Init asks for none.  With assertions
    compiled in, [start] either stops at a failed assertion or there is
    such a descent. *)
Theorem C4_start_default_descent fuel root sm :
  unlinked sm = true → state sm = None → parent parents root = None →
  S (S (length parents) + length (tab sm) + length parents) ≤ fuel →
  let init := withEvent emptyMessage Event.Init in
  (∀ leaf,
      descends parents (linkAll sm) init root leaf →
      ∃ tg tr,
        start emptyMessage parents NDEBUG fuel root sm
        = Ret (tt, setState (setTarget (linkAll sm) tg) (Some leaf), tr)
        ∧ (request (linkAll sm) leaf init = None
           ∨ request (linkAll sm) leaf init = Some leaf))
  ∧ (NDEBUG = false →
     start emptyMessage parents NDEBUG fuel root sm = Fault AssertionFailed
     ∨ ∃ leaf, descends parents (linkAll sm) init root leaf).
Proof using Htree.
  intros Hfresh Hst Hroot Hf init.
  destruct (linkAll_heap_ok sm Hfresh) as (Hok & Hst' & Hlen).
  rewrite Hst in Hst'. rewrite start_eq by done.
  destruct fuel as [|fuel]; [lia|].
  destruct (transition_spec fuel (Some root) emptyMessage (linkAll sm)
              [] [root] []) as [tg Htr];
    [done|lia|by rewrite Hst'|by rewrite path_Some, Hroot|
     intros c Hc; by apply elem_of_nil in Hc|].
  rewrite Htr. clear Htr. fold init. split.
  - intros leaf Hd.
    destruct (descent_follow _ _ _ _ Hd fuel
                (setState (setTarget (linkAll sm) tg) (Some root)))
      as (tg' & h & tr & Hret); [done|done|done|done|done|simpl; lia|].
    rewrite Hret. simpl. exists tg'. eexists. split; [reflexivity|].
    by apply (descends_leaf _ _ root).
  - intros HN.
    destruct (descent (length parents) root fuel
                (setState (setTarget (linkAll sm) tg) (Some root)) init)
      as [Hfault|(leaf & tg' & h & tr & Hret & Hd)];
      [done|done|done|done|lia|simpl; lia| |].
    + left. by rewrite Hfault.
    + right. exists leaf. eapply descends_same; [| |exact Hd]; reflexivity.
Qed.

(** On well-formed lists, as the first [start] leaves them, a user event
    for which neither the active leaf nor any of its ancestors has a
    binding, exact or wildcard, is dropped: the dispatch
    returns normally, the active state and the action lists are as
    before, and no handler has run. *)
Theorem unbound_event_dropped fuel msg sm a :
  heap_ok sm = true → S (length parents) + length (tab sm) ≤ fuel →
  state sm = Some a → (Event.User ≤ event msg)%N →
  Forall (λ s, lookup sm s (event msg) = None) (path parents (Some a)) →
  ∃ tg, message emptyMessage parents NDEBUG fuel msg sm
        = Ret (tt, setTarget sm tg, []).
Proof using Htree.
  intros Hok Hf Hst Hev Hall.
  pose proof (path_chain parents Htree (Some a)) as Hchain.
  pose proof (chain_length parents Htree _ _ Hchain) as Hlen.
  rewrite message_eq; [|by rewrite Hst|by right].
  rewrite (proj2 (N.leb_le _ _) Hev), Hst.
  apply (bubble_unhandled _ _ _ _ _ _ Hchain); (done || lia).
Qed.


(** C10.  On an active machine, [message] with an event that is neither
    Stop nor a user event (ALL, Exit, Entry or Init) fails its assertion
    when assertions are compiled in, and otherwise does nothing: it
    returns with the machine unchanged and no handler invoked. *)
Theorem C10_reserved_event_ignored fuel msg sm :
  state sm ≠ None →
  (event msg < Event.User)%N → event msg ≠ Event.Stop →
  message emptyMessage parents NDEBUG fuel msg sm
  = if NDEBUG then Ret (tt, sm, []) else Fault AssertionFailed.
Proof.
  intros Hst Hlt Hne. unfold message.
  rewrite (bind_Ret _ _ sm sm sm []) by done. rewrite after_nil.
  rewrite (bind_Ret _ _ sm tt sm [])
    by (apply assert_true; by apply bool_decide_eq_true).
  rewrite after_nil.
  rewrite bool_decide_eq_false_2 by (intros [?|?]; [done|lia]).
  unfold assert. destruct NDEBUG; [|done].
  rewrite (bind_Ret _ _ sm tt sm []) by done. rewrite after_nil.
  rewrite (proj2 (N.leb_gt _ _) Hlt).
  by rewrite (proj2 (N.eqb_neq _ _) Hne).
Qed.

(** *** Further properties of the engine *)

Lemma ancestor_path a x :
  ancestor parents a x → ∃ en, path parents x = en ++ path parents (Some a).
Proof using Htree.
  induction 1 as [|s _ [en IH]].
  - by exists [].
  - exists (s :: en). by rewrite path_Some, IH.
Qed.

(** [getRoot] does not depend on the order of its two arguments. *)
Theorem getRoot_comm a b fuel :
  S (length parents) ≤ fuel →
  getRoot parents fuel a b = getRoot parents fuel b a.
Proof using Htree.
  intros Hf.
  destruct (getRoot_spec parents Htree a b fuel Hf)
    as (ex & en & lr & r & Hex & Hen & Hr & Hd & ->).
  destruct (getRoot_spec parents Htree b a fuel Hf)
    as (en' & ex' & lr' & r' & Hen' & Hex' & Hr' & Hd' & ->).
  destruct (split_unique _ _ _ _ _ _ _ _ Hex Hen Hex' Hen' Hd)
    as (_ & _ & <-).
  { intros c Hc Hc'. by apply (Hd' c). }
  f_equal. by apply (chain_inj parents _ _ lr).
Qed.

(** [getRoot] of a state and of a state below it, or of the state
    itself, is that state. *)
Theorem getRoot_of_ancestor a x fuel :
  S (length parents) ≤ fuel → ancestor parents a x →
  getRoot parents fuel (Some a) x = Ret (Some a).
Proof using Htree.
  intros Hf Hanc. destruct (ancestor_path a x Hanc) as [en Hen].
  destruct (getRoot_spec parents Htree (Some a) x fuel Hf)
    as (ex' & en' & lr' & r & Hex' & Hen' & Hr & Hd & ->).
  destruct (split_unique (path parents (Some a)) (path parents x)
              [] en (path parents (Some a)) ex' en' lr')
    as (_ & _ & <-); try done.
  { intros c Hc. by apply elem_of_nil in Hc. }
  f_equal. apply (chain_inj parents _ _ (path parents (Some a))); [done|].
  apply path_chain; done.
Qed.

(** What one resolution does, on well-formed lists: without a binding
    [callHandler] returns [nullptr]; for a direct transition it returns
    the bound state and runs nothing; for a handler it runs the handler
    once, records the target the handler asked for, and returns the
    candidate itself.  The active state and the lists are never
    touched. *)
Theorem callHandler_resolves fuel s msg sm :
  heap_ok sm = true → length (tab sm) ≤ fuel →
  ∃ v sm' tr,
    callHandler fuel (Some s) msg sm = Ret (v, sm', tr)
    ∧ match lookup sm s (event msg) with
      | None => v = None ∧ sm' = sm ∧ tr = []
      | Some i =>
          ∃ a, tab sm !! i = Some a
            ∧ match action a with
              | VState t => v = Some t ∧ sm' = sm ∧ tr = []
              | VHandler handler_ =>
                  v = Some s ∧ tr = [Fired s i msg]
                  ∧ sm' = match handler_ msg with
                          | Some t => setTarget sm (Some t)
                          | None => sm
                          end
              end
      end.
Proof.
  intros Hok Hf. eexists _, _, _.
  split; [by apply callHandler_spec|].
  unfold resolved, fire.
  destruct (lookup sm s (event msg)) as [i|] eqn:Hi; [|done].
  destruct (lookup_Some_tab _ _ _ _ Hi) as [a Ha]. rewrite Ha.
  exists a. split; [done|]. by destruct (action a).
Qed.

Lemma assert_ndebug (c : bool) sm :
  NDEBUG = true → assert NDEBUG c sm = Ret (tt, sm, []).
Proof. intros HN. unfold assert. by rewrite HN. Qed.

Lemma assert_fails sm :
  NDEBUG = false → assert NDEBUG false sm = Fault AssertionFailed.
Proof. intros HN. unfold assert. by rewrite HN. Qed.

(** On a halted machine [message] fails its first assertion; without
    assertions a user event or a reserved event does nothing, and Stop
    only resets the pending target. *)
Theorem message_halted fuel msg sm :
  state sm = None → 1 ≤ fuel →
  message emptyMessage parents NDEBUG fuel msg sm
  = if NDEBUG then
      if (Event.User <=? event msg)%N then Ret (tt, sm, [])
      else if (event msg =? Event.Stop)%N then Ret (tt, setTarget sm None, [])
      else Ret (tt, sm, [])
    else Fault AssertionFailed.
Proof.
  intros Hst Hf. unfold message.
  rewrite (bind_Ret _ _ sm sm sm []) by done. rewrite after_nil.
  rewrite (bool_decide_eq_false_2 (state sm ≠ None))
    by (intros H; by apply H).
  destruct (Sumbool.sumbool_of_bool NDEBUG) as [HN|HN].
  2:{ rewrite (bind_Fault _ _ _ _ (assert_fails sm HN)). by rewrite HN. }
  rewrite (bind_Ret _ _ _ _ _ _ (assert_ndebug _ sm HN)), after_nil.
  rewrite (bind_Ret _ _ _ _ _ _ (assert_ndebug _ sm HN)), after_nil.
  replace (if NDEBUG then
             if (Event.User <=? event msg)%N then Ret (tt, sm, [])
             else if (event msg =? Event.Stop)%N
                  then Ret (tt, setTarget sm None, [])
                  else Ret (tt, sm, [])
           else @Fault (unit * StateMachine Payload * list (Obs Payload))
                  AssertionFailed)
    with (if (Event.User <=? event msg)%N then Ret (tt, sm, [])
          else if (event msg =? Event.Stop)%N
               then Ret (tt, setTarget sm None, [])
               else @Ret (unit * StateMachine Payload * list (Obs Payload))
                      (tt, sm, [])) by (by rewrite HN).
  destruct (Event.User <=? event msg)%N.
  - unfold eventHandler. rewrite (bind_Ret _ _ sm sm sm []) by done.
    rewrite after_nil, Hst. by destruct fuel.
  - destruct (event msg =? Event.Stop)%N; [|done].
    destruct fuel as [|fuel]; [lia|]. rewrite transition_eq, Hst.
    assert (getRoot parents fuel None None = Ret None) as ->
      by (by destruct fuel).
    rewrite exit_loop_eq, decide_True by done.
    rewrite entry_loop_eq, decide_True by done.
    by rewrite Hst, callAction_None.
Qed.

(** [start] on a machine that is already active fails its first
    assertion; without assertions it does nothing, not even linking. *)
Theorem start_when_active fuel root sm :
  state sm ≠ None →
  start emptyMessage parents NDEBUG fuel root sm
  = if NDEBUG then Ret (tt, sm, []) else Fault AssertionFailed.
Proof.
  intros Hst. unfold start.
  rewrite (bind_Ret _ _ sm sm sm []) by done. rewrite after_nil.
  rewrite (bool_decide_eq_false_2 (state sm = None)) by done.
  destruct (Sumbool.sumbool_of_bool NDEBUG) as [HN|HN].
  2:{ rewrite (bind_Fault _ _ _ _ (assert_fails sm HN)). by rewrite HN. }
  rewrite (bind_Ret _ _ _ _ _ _ (assert_ndebug _ sm HN)), after_nil.
  rewrite (bind_Ret _ _ _ _ _ _ (assert_ndebug _ sm HN)), after_nil.
  rewrite decide_False by done. by rewrite HN.
Qed.

(** [start] at a state that has a parent fails its second assertion;
    without assertions the first start enters every ancestor of the
    state from the top down, then the state, and resolves Init there. *)
Theorem start_at_nested_state fuel root sm :
  state sm = None → parent parents root ≠ None →
  (NDEBUG = false →
   start emptyMessage parents NDEBUG fuel root sm = Fault AssertionFailed)
  ∧ (NDEBUG = true → unlinked sm = true →
     S (length parents) + length (tab sm) ≤ fuel →
     ∃ tg,
       start emptyMessage parents NDEBUG (S fuel) root sm
       = after (flat_map (fire (linkAll sm)
                            (withEvent emptyMessage Event.Entry))
                  (rev (path parents (Some root))))
           (forget (callAction parents NDEBUG fuel (Some root)
                      (withEvent emptyMessage Event.Init)
                      (setState (setTarget (linkAll sm) tg) (Some root))))).
Proof using Htree.
  intros Hst Hroot. split.
  - intros HN. unfold start.
    rewrite (bind_Ret _ _ sm sm sm []) by done. rewrite after_nil.
    rewrite (bind_Ret _ _ sm tt sm [])
      by (apply assert_true; by apply bool_decide_eq_true).
    rewrite after_nil.
    rewrite bool_decide_eq_false_2 by congruence.
    by rewrite (bind_Fault _ _ _ _ (assert_fails sm HN)).
  - intros HN Hfresh Hf.
    destruct (linkAll_heap_ok sm Hfresh) as (Hok & Hst' & Hlen).
    rewrite Hst in Hst'.
    assert (start emptyMessage parents NDEBUG (S fuel) root sm
            = transition parents NDEBUG (S fuel) (Some root) emptyMessage
                (linkAll sm)) as ->.
    { unfold start.
      rewrite (bind_Ret _ _ sm sm sm []) by done. rewrite after_nil.
      rewrite (bind_Ret _ _ _ _ _ _ (assert_ndebug _ sm HN)), after_nil.
      rewrite (bind_Ret _ _ _ _ _ _ (assert_ndebug _ sm HN)), after_nil.
      rewrite decide_True by done.
      rewrite (bind_Ret _ _ sm tt (linkAll sm) []) by done.
      by rewrite after_nil. }
    destruct (transition_spec (S fuel - 1) (Some root) emptyMessage
                (linkAll sm) [] (path parents (Some root)) [])
      as [tg Htr]; [done|lia|by rewrite Hst'|by rewrite app_nil_r|
                    intros c Hc; by apply elem_of_nil in Hc|].
    replace (S fuel - 1) with fuel in Htr by lia.
    exists tg. by rewrite Htr.
Qed.

(** *** What the engine leaves alone *)

Lemma same_but_target_setTarget sm sm' x :
  same_but_target sm sm' → setTarget sm x = setTarget sm' x.
Proof.
  destruct sm, sm'. unfold same_but_target. simpl.
  by intros (-> & -> & ->).
Qed.

Lemma callHandler_agree fuel x msg sm sm' :
  same_but_target sm sm' →
  agree (callHandler fuel x msg sm) (callHandler fuel x msg sm').
Proof.
  destruct sm as [st tg tb q], sm' as [st' tg' tb' q'].
  unfold same_but_target. simpl. intros (<- & <- & <-).
  unfold callHandler, mbind, M_bind, get, lift, getAction. simpl.
  destruct x as [s|]; simpl; [|done].
  destruct (getAction_loop fuel tb (q !! s) (event msg)) as [[i|]|];
    simpl; try done.
  destruct (tb !! i) as [a|]; simpl; [|done].
  destruct (action a) as [t|h]; simpl; [done|].
  unfold put. destruct (h msg); simpl; done.
Qed.

Lemma callHandler_same fuel x msg sm v sm' tr :
  callHandler fuel x msg sm = Ret (v, sm', tr) → same_but_target sm sm'.
Proof.
  destruct sm as [st tg tb q].
  unfold callHandler, mbind, M_bind, get, lift, getAction. simpl.
  destruct x as [s|]; simpl; [|by intros [= _ <- _]].
  destruct (getAction_loop fuel tb (q !! s) (event msg)) as [[i|]|];
    simpl; try done; [|by intros [= _ <- _]].
  destruct (tb !! i) as [a|]; simpl; [|done].
  destruct (action a) as [t|h]; simpl; [by intros [= _ <- _]|].
  unfold put. destruct (h msg); simpl; by intros [= _ <- _].
Qed.

Lemma agree_after {A} t
    (r r' : result (A * StateMachine Payload * list (Obs Payload))) :
  agree r r' → agree (after t r) (after t r').
Proof.
  destruct r as [[[a sm] tr]|], r' as [[[a' sm'] tr']|]; simpl; try done.
  by intros (-> & -> & ?).
Qed.

Lemma exit_loop_agree n fuel r msg sm sm' :
  same_but_target sm sm' →
  agree (exit_loop parents n fuel r msg sm) (exit_loop parents n fuel r msg sm').
Proof.
  revert sm sm'. induction n as [|n IH]; intros sm sm' Hs;
    rewrite !exit_loop_eq; pose proof Hs as (Hst & Ht & Hq); rewrite <- Hst.
  - by destruct (decide (state sm = r)).
  - destruct (decide (state sm = r)); [done|].
    pose proof (callHandler_agree fuel (state sm)
                  (withEvent msg Event.Exit) sm sm' Hs) as Hc.
    destruct (callHandler _ _ _ sm) as [[[v sm1] t1]|],
      (callHandler _ _ _ sm') as [[[v' sm1'] t1']|]; simpl in Hc; try done.
    destruct Hc as (-> & -> & Hs1). apply agree_after.
    pose proof Hs1 as (Hst1 & Ht1 & Hq1). rewrite <- Hst1. by apply IH.
Qed.

Lemma entry_loop_agree n fuel next_ msg sm sm' :
  same_but_target sm sm' →
  agree (entry_loop parents n fuel next_ msg sm)
    (entry_loop parents n fuel next_ msg sm').
Proof.
  revert sm sm'. induction n as [|n IH]; intros sm sm' Hs;
    rewrite !entry_loop_eq; pose proof Hs as (Hst & Ht & Hq); rewrite <- Hst.
  - by destruct (decide (state sm = next_)).
  - destruct (decide (state sm = next_)); [done|].
    destruct (getNext parents fuel (state sm) next_) as [s|]; [|done].
    assert (same_but_target (setState sm s) (setState sm' s)) as Hs'
      by (by repeat split).
    pose proof (callHandler_agree fuel s (withEvent msg Event.Entry)
                  (setState sm s) (setState sm' s) Hs') as Hc.
    destruct (callHandler _ _ _ (setState sm s)) as [[[v sm1] t1]|],
      (callHandler _ _ _ (setState sm' s)) as [[[v' sm1'] t1']|];
      simpl in Hc; try done.
    destruct Hc as (-> & -> & Hs1). apply agree_after. by apply IH.
Qed.

Lemma callAction_agree fuel x msg sm sm' :
  same_but_target sm sm' →
  callAction parents NDEBUG fuel x msg sm
  = callAction parents NDEBUG fuel x msg sm'.
Proof.
  intros Hs. unfold callAction, callAction_with, resolveTarget.
  unfold mbind at 1 3, M_bind at 1 3. unfold mbind at 1 4, M_bind at 1 4.
  unfold get. simpl. unfold mbind at 1 4, M_bind at 1 4. unfold put. simpl.
  by rewrite (same_but_target_setTarget sm sm' x Hs).
Qed.

Lemma transition_agree fuel next_ msg sm sm' :
  same_but_target sm sm' →
  transition parents NDEBUG fuel next_ msg sm
  = transition parents NDEBUG fuel next_ msg sm'.
Proof.
  intros Hs. destruct fuel as [|fuel]; [done|]. rewrite !transition_eq.
  pose proof Hs as (Hst & _ & _). rewrite <- Hst.
  destruct (getRoot parents fuel (state sm) next_) as [r|]; [|done].
  pose proof (exit_loop_agree fuel fuel r msg sm sm' Hs) as He.
  destruct (exit_loop _ _ _ _ _ sm) as [[[[] sm1] t1]|],
    (exit_loop _ _ _ _ _ sm') as [[[[] sm1'] t1']|]; simpl in He;
    try done; [|congruence].
  destruct He as (_ & -> & Hs1).
  pose proof (entry_loop_agree fuel fuel next_ msg sm1 sm1' Hs1) as Hn.
  destruct (entry_loop _ _ _ _ _ sm1) as [[[[] sm2] t2]|],
    (entry_loop _ _ _ _ _ sm1') as [[[[] sm2'] t2']|]; simpl in Hn;
    try done; [|congruence].
  destruct Hn as (_ & -> & Hs2). pose proof Hs2 as (Hst2 & _ & _).
  by rewrite <- Hst2, (callAction_agree fuel (state sm2) _ sm2 sm2' Hs2).
Qed.

(** A target handed to [transition( State& )] outside a handler is
    forgotten: on an active machine the next message, a user event or
    Stop, runs exactly as if the call had not been made. *)
Theorem transition_target_outside_handler fuel msg sm t :
  state sm ≠ None →
  event msg = Event.Stop ∨ (Event.User ≤ event msg)%N →
  (transition_target t ≫= λ _, message emptyMessage parents NDEBUG fuel msg)
    sm
  = message emptyMessage parents NDEBUG fuel msg sm.
Proof.
  intros Hst Hev.
  rewrite (bind_Ret _ _ sm tt (setTarget sm (Some t)) []) by done.
  rewrite after_nil, !message_eq by done. simpl state.
  destruct (Event.User <=? event msg)%N.
  - destruct (state sm) as [s|]; [|done]. by destruct fuel.
  - by apply transition_agree.
Qed.

Lemma bind_Ret_inv {A B} (c : M Payload A) (k : A → M Payload B)
    sm b sm2 t :
  (c ≫= k) sm = Ret (b, sm2, t) →
  ∃ a sm1 t1 t2,
    c sm = Ret (a, sm1, t1) ∧ k a sm1 = Ret (b, sm2, t2) ∧ t = t1 ++ t2.
Proof.
  unfold mbind, M_bind. destruct (c sm) as [[[a sm1] t1]|] eqn:Hc; [|done].
  destruct (k a sm1) as [[[b' sm2'] t2]|] eqn:Hk; [|done].
  intros [= -> -> <-]. by exists a, sm1, t1, t2.
Qed.

Lemma exit_loop_lists n fuel r msg sm u sm' tr :
  exit_loop parents n fuel r msg sm = Ret (u, sm', tr) →
  tab sm' = tab sm ∧ queue sm' = queue sm.
Proof.
  revert sm u sm' tr. induction n as [|n IH]; intros sm u sm' tr;
    rewrite exit_loop_eq;
    destruct (decide (state sm = r)); try done;
    try (by intros ?; simplify_eq).
  destruct (callHandler _ _ _ sm) as [[[v sm1] t1]|] eqn:Hc; [|done].
  apply callHandler_same in Hc as (_ & Ht & Hq).
  destruct (exit_loop _ _ _ _ _ _) as [[[u2 sm2] t2]|] eqn:Hl; [|done].
  apply IH in Hl as [Ht2 Hq2]. simpl in *. intros ?; simplify_eq.
  split; congruence.
Qed.

Lemma entry_loop_lists n fuel next_ msg sm u sm' tr :
  entry_loop parents n fuel next_ msg sm = Ret (u, sm', tr) →
  tab sm' = tab sm ∧ queue sm' = queue sm.
Proof.
  revert sm u sm' tr. induction n as [|n IH]; intros sm u sm' tr;
    rewrite entry_loop_eq;
    destruct (decide (state sm = next_)); try done;
    try (by intros ?; simplify_eq).
  destruct (getNext _ _ _ _) as [s|]; [|done].
  destruct (callHandler _ _ _ _) as [[[v sm1] t1]|] eqn:Hc; [|done].
  apply callHandler_same in Hc as (_ & Ht & Hq).
  destruct (entry_loop _ _ _ _ _ _) as [[[u2 sm2] t2]|] eqn:Hl; [|done].
  apply IH in Hl as [Ht2 Hq2]. simpl in *. intros ?; simplify_eq.
  split; congruence.
Qed.

Lemma callAction_with_lists tr_ fuel x msg sm b sm' tr :
  (∀ next_ msg' sm1 u sm2 t,
      tr_ next_ msg' sm1 = Ret (u, sm2, t) →
      tab sm2 = tab sm1 ∧ queue sm2 = queue sm1) →
  callAction_with parents NDEBUG tr_ fuel x msg sm = Ret (b, sm', tr) →
  tab sm' = tab sm ∧ queue sm' = queue sm.
Proof.
  intros Htr. unfold callAction_with.
  intros (r & sm1 & t1 & t2 & Hres & Hrest & _)%bind_Ret_inv.
  assert (tab sm1 = tab sm ∧ queue sm1 = queue sm) as [Ht1 Hq1].
  { unfold resolveTarget in Hres.
    apply bind_Ret_inv in Hres as (? & ? & ? & ? & ? & Hres & _).
    unfold get in *. simplify_eq.
    apply bind_Ret_inv in Hres as (? & ? & ? & ? & ? & Hres & _).
    unfold put in *. simplify_eq.
    apply bind_Ret_inv in Hres as (v & sm0 & ? & ? & Hc & Hres & _).
    apply callHandler_same in Hc as (_ & Ht & Hq). simpl in Ht, Hq.
    destruct v as [v|];
      [|unfold mret, M_ret in Hres; simplify_eq; split; congruence].
    destruct (decide (Some v = x)).
    - apply bind_Ret_inv in Hres as (? & ? & ? & ? & ? & Hres & _).
      unfold get, mret, M_ret in *. simplify_eq. split; congruence.
    - unfold mret, M_ret in Hres. simplify_eq. split; congruence. }
  unfold mret, M_ret in Hrest.
  destruct r as [target_|]; [|by simplify_eq].
  destruct (decide (target_ = x)); [by simplify_eq|].
  apply bind_Ret_inv in Hrest as ([] & sm2 & ? & ? & Ha & Hrest & _).
  assert (sm2 = sm1) as ->.
  { unfold assertChild, mret, M_ret, fault in Ha.
    destruct NDEBUG; [by simplify_eq|].
    destruct (Event.User <=? event msg)%N; [by simplify_eq|].
    destruct target_ as [t|]; [|done].
    destruct (decide (parent parents t = x)); [by simplify_eq|done]. }
  apply bind_Ret_inv in Hrest as ([] & sm3 & ? & ? & Ht & Hrest & _).
  apply Htr in Ht as [Ht3 Hq3]. simplify_eq.
  split; congruence.
Qed.

Lemma transition_lists fuel next_ msg sm u sm' tr :
  transition parents NDEBUG fuel next_ msg sm = Ret (u, sm', tr) →
  tab sm' = tab sm ∧ queue sm' = queue sm.
Proof.
  revert next_ msg sm u sm' tr.
  induction fuel as [|fuel IH]; intros next_ msg sm u sm' tr; [done|].
  rewrite transition_eq.
  destruct (getRoot _ _ _ _) as [r|]; [|done].
  destruct (exit_loop _ _ _ _ _ _) as [[[[] sm1] t1]|] eqn:He; [|done].
  apply exit_loop_lists in He as [Ht1 Hq1].
  destruct (entry_loop _ _ _ _ _ _) as [[[[] sm2] t2]|] eqn:Hn; [|done].
  apply entry_loop_lists in Hn as [Ht2 Hq2].
  destruct (callAction _ _ _ _ _ _) as [[[b sm3] t3]|] eqn:Hc; [|done].
  apply (callAction_with_lists _ _ _ _ _ _ _ _ IH) in Hc as [Ht3 Hq3].
  simpl. intros ?; simplify_eq. split; congruence.
Qed.

Lemma eventHandler_loop_lists n fuel x msg sm u sm' tr :
  eventHandler_loop parents NDEBUG n fuel x msg sm = Ret (u, sm', tr) →
  tab sm' = tab sm ∧ queue sm' = queue sm.
Proof.
  revert x sm u sm' tr. induction n as [|n IH]; intros x sm u sm' tr;
    (destruct x as [s|];
     [|simpl; unfold mret, M_ret; by intros ?; simplify_eq]); [done|].
  rewrite eventHandler_loop_eq.
  destruct (callAction _ _ _ _ _ _) as [[[b sm1] t1]|] eqn:Hc; [|done].
  apply (callAction_with_lists _ _ _ _ _ _ _ _
           (transition_lists fuel)) in Hc as [Ht1 Hq1].
  destruct b; [by intros ?; simplify_eq|].
  destruct (eventHandler_loop _ _ _ _ _ _ _) as [[[u2 sm2] t2]|] eqn:Hl;
    [|done].
  apply IH in Hl as [Ht2 Hq2]. simpl. intros ?; simplify_eq.
  split; congruence.
Qed.

Lemma assert_inv (c : bool) sm u sm' t :
  assert NDEBUG c sm = Ret (u, sm', t) → sm' = sm.
Proof.
  unfold assert, mret, M_ret, fault.
  destruct NDEBUG; [by intros ?; simplify_eq|].
  destruct c; [by intros ?; simplify_eq|done].
Qed.

Lemma message_lists fuel msg sm u sm' tr :
  message emptyMessage parents NDEBUG fuel msg sm = Ret (u, sm', tr) →
  tab sm' = tab sm ∧ queue sm' = queue sm.
Proof.
  intros Hm. unfold message in Hm.
  apply bind_Ret_inv in Hm as (? & ? & ? & ? & ? & Hm & _).
  unfold get in *. simplify_eq.
  apply bind_Ret_inv in Hm as (? & ? & ? & ? & ->%assert_inv & Hm & _).
  apply bind_Ret_inv in Hm as (? & ? & ? & ? & ->%assert_inv & Hm & _).
  destruct (Event.User <=? event msg)%N.
  - unfold eventHandler in Hm.
    apply bind_Ret_inv in Hm as (? & ? & ? & ? & ? & Hm & _).
    unfold get in *. simplify_eq.
    by apply eventHandler_loop_lists in Hm.
  - destruct (event msg =? Event.Stop)%N.
    + by apply transition_lists in Hm.
    + unfold mret, M_ret in Hm. by simplify_eq.
Qed.

(** Whatever the lists look like and whatever the budget, [message] and
    [transition] return with the action table and the queues of the
    states exactly as they found them. *)
Theorem message_keeps_lists fuel msg next_ sm u sm' tr :
  message emptyMessage parents NDEBUG fuel msg sm = Ret (u, sm', tr)
  ∨ transition parents NDEBUG fuel next_ msg sm = Ret (u, sm', tr) →
  tab sm' = tab sm ∧ queue sm' = queue sm.
Proof.
  intros [Hm|Ht]; [by apply message_lists in Hm|].
  by apply transition_lists in Ht.
Qed.

Lemma heap_ok_same sm sm' :
  tab sm' = tab sm → queue sm' = queue sm → heap_ok sm' = heap_ok sm.
Proof. intros Ht Hq. unfold heap_ok. by rewrite Ht, Hq. Qed.

(** From the first [start] until the machine is started again the lists
    are well formed: the first [start] of an unlinked machine, when it
    returns, leaves them as lists without cycle, with every head in the
    table, and a [message] to a machine with well-formed lists, when it
    returns, keeps them so.  A second [start] links again and is not
    covered. *)
Theorem lists_stay_well_formed fuel root msg sm u sm' tr :
  (unlinked sm = true ∧ state sm = None
   ∧ start emptyMessage parents NDEBUG fuel root sm = Ret (u, sm', tr))
  ∨ (heap_ok sm = true
     ∧ message emptyMessage parents NDEBUG fuel msg sm = Ret (u, sm', tr)) →
  heap_ok sm' = true.
Proof.
  intros [(Hfresh & Hst & Hs)|(Hok & Hm)].
  - destruct (linkAll_heap_ok sm Hfresh) as (Hok & _ & _).
    unfold start in Hs.
    apply bind_Ret_inv in Hs as (? & ? & ? & ? & ? & Hs & _).
    unfold get in *. simplify_eq.
    apply bind_Ret_inv in Hs as (? & ? & ? & ? & ->%assert_inv & Hs & _).
    apply bind_Ret_inv in Hs as (? & ? & ? & ? & ->%assert_inv & Hs & _).
    rewrite decide_True in Hs by done.
    apply bind_Ret_inv in Hs as (? & ? & ? & ? & ? & Hs & _).
    unfold put in *. simplify_eq.
    apply transition_lists in Hs as [Ht Hq].
    by rewrite (heap_ok_same _ _ Ht Hq).
  - apply message_lists in Hm as [Ht Hq].
    by rewrite (heap_ok_same _ _ Ht Hq).
Qed.

(** *** Dispatch of a user event, from the message to the new leaf *)

Lemma request_is_Some_lookup sm s msg t :
  request sm s msg = Some t → is_Some (lookup sm s (event msg)).
Proof.
  unfold request, resolved.
  destruct (lookup sm s (event msg)); [by eexists|done].
Qed.

Lemma assertChild_user msg target_ state_ sm :
  (Event.User ≤ event msg)%N →
  assertChild parents NDEBUG msg target_ state_ sm = Ret (tt, sm, []).
Proof.
  intros Hev. unfold assertChild. destruct NDEBUG; [done|].
  by rewrite (proj2 (N.leb_le _ _) Hev).
Qed.

Lemma withEvent_idem msg e : withEvent (withEvent msg e) e = withEvent msg e.
Proof. done. Qed.

Lemma first_binding sm e (l : list nat) :
  Forall (λ s, lookup sm s e = None) l
  ∨ ∃ below c rest,
      l = below ++ c :: rest
      ∧ Forall (λ s, lookup sm s e = None) below
      ∧ is_Some (lookup sm c e).
Proof.
  induction l as [|s l [IH|(below & c & rest & -> & Hb & Hc)]].
  - left. constructor.
  - destruct (lookup sm s e) as [i|] eqn:Hs.
    + right. exists [], s, l. rewrite Hs. by repeat split.
    + left. by constructor.
  - destruct (lookup sm s e) as [i|] eqn:Hs.
    + right. exists [], s, (below ++ c :: rest). rewrite Hs. by repeat split.
    + right. exists (s :: below), c, rest. repeat split; [|done].
      by constructor.
Qed.

(** On well-formed lists, as the first [start] leaves them, a binding
    whose action is the state itself, as
    [Action( State& owner_, unsigned event_ )] builds it, consumes the
    event: the dispatch returns with the active state unchanged and no
    handler run, and the bindings of the ancestors are not consulted. *)
Theorem self_binding_consumes fuel msg sm a below c rest i act :
  heap_ok sm = true → S (length parents) + length (tab sm) ≤ fuel →
  state sm = Some a → (Event.User ≤ event msg)%N →
  path parents (Some a) = below ++ c :: rest →
  Forall (λ s, lookup sm s (event msg) = None) below →
  lookup sm c (event msg) = Some i → tab sm !! i = Some act →
  action act = VState c →
  message emptyMessage parents NDEBUG fuel msg sm
  = Ret (tt, setTarget sm (Some c), []).
Proof using Htree.
  intros Hok Hf Hst Hev Hpath Hbelow Hi Hact Hself.
  pose proof (path_chain parents Htree (Some a)) as Hchain.
  pose proof (chain_length parents Htree _ _ Hchain) as Hlen.
  rewrite Hpath in Hchain, Hlen. rewrite length_app in Hlen. simpl in Hlen.
  rewrite message_eq; [|by rewrite Hst|by right].
  rewrite (proj2 (N.leb_le _ _) Hev), Hst.
  rewrite (bubble_handled below c rest); [|done|done|by eexists|done|lia|lia].
  unfold callAction. rewrite callAction_with_spec by (done || lia).
  unfold request, requested, resolved, fire. rewrite Hi, Hact, Hself.
  by rewrite decide_True.
Qed.

(** On well-formed lists, as the first [start] leaves them, a user event
    whose first binding on the way up asks for a transition to [t] --
    directly or by its handler -- leaves the machine in the leaf of the
    default descent from [t], wherever [t] lies in the tree. *)
Theorem message_reaches_descent_leaf fuel msg sm a below c rest t leaf :
  heap_ok sm = true →
  S (S (length parents) + length (tab sm) + length parents) ≤ fuel →
  state sm = Some a → (Event.User ≤ event msg)%N →
  path parents (Some a) = below ++ c :: rest →
  Forall (λ s, lookup sm s (event msg) = None) below →
  request sm c msg = Some t → t ≠ c →
  descends parents sm (withEvent msg Event.Init) t leaf →
  ∃ tg tr,
    message emptyMessage parents NDEBUG fuel msg sm
    = Ret (tt, setState (setTarget sm tg) (Some leaf), tr).
Proof using Htree.
  intros Hok Hf Hst Hev Hpath Hbelow Hreq Hne Hd.
  pose proof (path_chain parents Htree (Some a)) as Hchain.
  pose proof (chain_length parents Htree _ _ Hchain) as Hlen.
  rewrite Hpath in Hchain, Hlen. rewrite length_app in Hlen. simpl in Hlen.
  rewrite message_eq; [|by rewrite Hst|by right].
  rewrite (proj2 (N.leb_le _ _) Hev), Hst.
  rewrite (bubble_handled below c rest);
    [|done|done|by apply (request_is_Some_lookup _ _ _ t)|done|lia|lia].
  unfold callAction. rewrite callAction_with_spec by (done || lia).
  rewrite Hreq, decide_False by done.
  rewrite (bind_Ret _ _ _ _ _ _ (assertChild_user msg _ _ _ Hev)), after_nil.
  destruct fuel as [|fuel]; [lia|].
  destruct (transition_decomposed fuel (Some t) msg
              (setTarget sm (requested sm c msg)))
    as (ex & en & lr & r & tg & _ & _ & _ & _ & _ & Htr); [done|simpl; lia|].
  destruct (descent_follow _ _ _ _ Hd fuel
              (setState (setTarget (setTarget sm (requested sm c msg)) tg)
                 (Some t)))
    as (tg' & h & tr & Hret);
    [apply withEvent_idem|done|done|done|done|simpl; lia|].
  unfold mbind at 1, M_bind at 1. rewrite Htr, Hret. simpl.
  by eexists _, _.
Qed.

(** With assertions compiled in, a message to an active machine with
    well-formed lists always comes back: it returns, or it stops at a
    failed assertion; it neither runs forever nor follows a null
    pointer. *)
Theorem message_terminates fuel msg sm :
  NDEBUG = false → heap_ok sm = true → state sm ≠ None →
  event msg = Event.Stop ∨ (Event.User ≤ event msg)%N →
  S (S (length parents) + length (tab sm) + length parents) ≤ fuel →
  message emptyMessage parents NDEBUG fuel msg sm = Fault AssertionFailed
  ∨ ∃ sm' tr,
      message emptyMessage parents NDEBUG fuel msg sm = Ret (tt, sm', tr).
Proof using Htree.
  intros HN Hok Hst Hev Hf. rewrite message_eq by done.
  destruct (state sm) as [a|] eqn:Ha; [clear Hst|done].
  pose proof (path_chain parents Htree (Some a)) as Hchain.
  pose proof (chain_length parents Htree _ _ Hchain) as Hlen.
  destruct (Event.User <=? event msg)%N eqn:Hu.
  - apply N.leb_le in Hu.
    destruct (first_binding sm (event msg) (path parents (Some a)))
      as [Hall|(below & c & rest & Hpath & Hbelow & Hc)].
    + destruct (bubble_unhandled _ _ fuel fuel msg sm Hchain Hall)
        as [tg ->]; [done|lia|lia|]. right. by eexists _, _.
    + rewrite Hpath in Hchain, Hlen. rewrite length_app in Hlen.
      simpl in Hlen.
      rewrite (bubble_handled below c rest); [|done|done|done|done|lia|lia].
      unfold callAction. rewrite callAction_with_spec by (done || lia).
      destruct (request_lookup_Some _ _ _ Hc) as [t Hreq]. rewrite Hreq.
      destruct (decide (t = c)); [right; by eexists _, _|].
      rewrite (bind_Ret _ _ _ _ _ _ (assertChild_user msg _ _ _ Hu)),
        after_nil.
      destruct fuel as [|fuel]; [lia|].
      destruct (transition_decomposed fuel (Some t) msg
                  (setTarget sm (requested sm c msg)))
        as (ex & en & lr & r & tg & _ & _ & _ & _ & _ & Htr);
        [done|simpl; lia|].
      destruct (descent (length parents) t fuel
                  (setState (setTarget (setTarget sm (requested sm c msg)) tg)
                     (Some t)) (withEvent msg Event.Init))
        as [Hfault|(leaf & tg' & h & tr & Hret & _)];
        [done|apply withEvent_idem|done|done|lia|simpl; lia| |].
      * left. unfold mbind at 1, M_bind at 1. by rewrite Htr, Hfault.
      * right. unfold mbind at 1, M_bind at 1. rewrite Htr, Hret. simpl.
        by eexists _, _.
  - right. destruct fuel as [|fuel]; [lia|].
    destruct (transition_spec fuel None emptyMessage sm
                (path parents (state sm)) [] []) as [tg Htr];
      [done|lia|by rewrite app_nil_r|done|
       intros c _ Hc; by apply elem_of_nil in Hc|].
    rewrite Htr, callAction_None. simpl. by eexists _, _.
Qed.

(** On well-formed lists, as the first [start] leaves them, a transition
    to a state on the branch of the active state stays on the branch.
    Going up to an ancestor only exits the states below it: the ancestor
    is neither exited nor entered again, and Init is resolved there.
    Going down only enters the states on the way. *)
Theorem transition_along_branch fuel next_ msg sm :
  heap_ok sm = true → S (length parents) + length (tab sm) ≤ fuel →
  (∀ ex,
      path parents (state sm) = ex ++ path parents next_ →
      ∃ tg,
        transition parents NDEBUG (S fuel) next_ msg sm
        = after (flat_map (fire sm (withEvent msg Event.Exit)) ex)
            (forget (callAction parents NDEBUG fuel next_
                       (withEvent msg Event.Init)
                       (setState (setTarget sm tg) next_))))
  ∧ (∀ en,
        path parents next_ = en ++ path parents (state sm) →
        ∃ tg,
          transition parents NDEBUG (S fuel) next_ msg sm
          = after (flat_map (fire sm (withEvent msg Event.Entry)) (rev en))
              (forget (callAction parents NDEBUG fuel next_
                         (withEvent msg Event.Init)
                         (setState (setTarget sm tg) next_)))).
Proof using Htree.
  intros Hok Hf. split.
  - intros ex Hex.
    destruct (transition_spec fuel next_ msg sm ex [] (path parents next_))
      as [tg Htr]; [done|done|done|done|
                    intros c _ Hc; by apply elem_of_nil in Hc|].
    exists tg. rewrite Htr. simpl. by rewrite app_nil_r.
  - intros en Hen.
    destruct (transition_spec fuel next_ msg sm [] en
                (path parents (state sm)))
      as [tg Htr]; [done|done|done|done|
                    intros c Hc; by apply elem_of_nil in Hc|].
    by exists tg.
Qed.

(** *** Dispatch on lists with a cycle *)

(** A lookup that does not end stops the resolution. *)
Lemma callHandler_fault fuel s msg sm e :
  getAction fuel sm s (event msg) = Fault e →
  callHandler fuel s msg sm = Fault e.
Proof.
  intros H. unfold callHandler.
  erewrite bind_Ret; [|reflexivity].
  erewrite bind_Fault; [done|]. unfold lift. by rewrite H.
Qed.

Lemma callAction_fault fuel s msg sm e :
  getAction fuel sm s (event msg) = Fault e →
  callAction parents NDEBUG fuel s msg sm = Fault e.
Proof.
  intros H. unfold callAction, callAction_with.
  erewrite bind_Fault; [done|]. unfold resolveTarget.
  erewrite bind_Ret; [|reflexivity].
  erewrite bind_Ret; [|reflexivity].
  erewrite bind_Fault; [done|]. by apply callHandler_fault.
Qed.

(** A user event whose lookup at the active state never ends is never
    dispatched. *)
Lemma message_lookup_diverges msg sm s :
  state sm = Some s → (Event.User ≤ event msg)%N →
  (∀ fuel, getAction fuel sm (Some s) (event msg) = Fault OutOfFuel) →
  ∀ fuel, message emptyMessage parents NDEBUG fuel msg sm = Fault OutOfFuel.
Proof.
  intros Hst Hev Hloop fuel.
  rewrite message_eq; [|by rewrite Hst|by right].
  rewrite (proj2 (N.leb_le _ _) Hev), Hst.
  destruct fuel as [|n]; [done|].
  rewrite eventHandler_loop_eq.
  by rewrite (callAction_fault (S n) (Some s) msg sm OutOfFuel).
Qed.

Lemma getRoot_not_ancestor fuel s next_ r :
  S (length parents) ≤ fuel → ¬ ancestor parents s next_ →
  getRoot parents fuel (Some s) next_ = Ret r → r ≠ Some s.
Proof using Htree.
  intros Hf Hna Hr ->.
  destruct (getRoot_spec parents Htree (Some s) next_ fuel Hf)
    as (ex & en & lr & r & Hex & Hen & Hlr & _ & Hr').
  rewrite Hr in Hr'. injection Hr' as <-.
  apply Hna.
  apply (ancestor_chain parents s next_ (path parents next_));
    [apply (path_chain parents Htree)|].
  rewrite Hen. apply elem_of_app. right.
  inversion Hlr; subst. apply list_elem_of_here.
Qed.

(** A transition away from a state whose lookup of Exit never ends does
    not return. *)
Lemma transition_exit_diverges next_ msg sm s :
  state sm = Some s → ¬ ancestor parents s next_ →
  (∀ fuel, getAction fuel sm (Some s) Event.Exit = Fault OutOfFuel) →
  ∀ fuel, S (S (length parents)) ≤ fuel →
    transition parents NDEBUG fuel next_ msg sm = Fault OutOfFuel.
Proof using Htree.
  intros Hst Hna Hloop fuel Hf.
  destruct fuel as [|fuel]; [lia|]. rewrite transition_eq, Hst.
  destruct (getRoot_spec parents Htree (Some s) next_ fuel)
    as (ex & en & lr & r & Hex & Hen & Hlr & _ & Hr); [lia|].
  rewrite Hr.
  assert (r ≠ Some s) as Hne
    by (eapply getRoot_not_ancestor; [| |exact Hr]; [lia|done]).
  rewrite exit_loop_eq, decide_False by (by rewrite Hst).
  destruct fuel as [|fuel]; [done|].
  rewrite Hst.
  by rewrite (callHandler_fault (S fuel) (Some s) (withEvent msg Event.Exit) sm
                OutOfFuel).
Qed.

(** A direct transition whose cascade does not return. *)
Lemma callAction_direct_fault fuel s msg sm i a t e :
  getAction fuel sm (Some s) (event msg) = Ret (Some i) →
  tab sm !! i = Some a → action a = VState t → t ≠ s →
  (Event.User ≤ event msg)%N →
  transition parents NDEBUG fuel (Some t) msg (setTarget sm (Some s))
  = Fault e →
  callAction parents NDEBUG fuel (Some s) msg sm = Fault e.
Proof.
  intros Hget Ha Hact Hne Hev Htr. unfold callAction, callAction_with.
  assert (resolveTarget fuel (Some s) msg sm
          = Ret (Some (Some t), setTarget sm (Some s), [])) as Hres.
  { unfold resolveTarget.
    rewrite (bind_Ret _ _ sm sm sm []) by done. rewrite after_nil.
    rewrite (bind_Ret _ _ sm tt (setTarget sm (Some s)) []) by done.
    rewrite after_nil.
    rewrite (bind_Ret _ _ (setTarget sm (Some s)) (Some t)
               (setTarget sm (Some s)) []).
    - simpl. by rewrite decide_False by congruence.
    - unfold callHandler.
      rewrite (bind_Ret _ _ _ (setTarget sm (Some s)) (setTarget sm (Some s))
                 []) by done.
      rewrite after_nil.
      rewrite (bind_Ret _ _ _ (Some i) (setTarget sm (Some s)) []).
      + simpl. change (tab (setTarget sm (Some s))) with (tab sm).
        by rewrite Ha, Hact.
      + unfold lift.
        change (getAction fuel (setTarget sm (Some s)) (Some s) (event msg))
          with (getAction fuel sm (Some s) (event msg)).
        by rewrite Hget. }
  rewrite (bind_Ret _ _ _ _ _ _ Hres). rewrite after_nil.
  rewrite decide_False by congruence.
  rewrite (bind_Ret _ _ _ tt (setTarget sm (Some s)) [])
    by (by apply assertChild_user).
  rewrite after_nil.
  by rewrite (bind_Fault _ _ _ e).
Qed.

End EngineFacts.

(** ** The properties on the recorder *)

#[local] Existing Instance M_ret.
#[local] Existing Instance M_bind.

(** The run of the example application visits the leaves it announces. *)
Example vcr_main :
  VCR.main 60
  = map (λ s, Some s)
      [ Some VCR.StateOff; Some VCR.StateIdleStop; Some VCR.StateIdleRew;
        Some VCR.StateIdleStop; Some VCR.StatePlayingPlay;
        Some VCR.StatePlayingPause; Some VCR.StatePlayingPlay;
        Some VCR.StateIdleStop; Some VCR.StateIdleRew;
        Some VCR.StateIdleStop; Some VCR.StateRecordingRecord;
        Some VCR.StateIdleStop; Some VCR.StateOff; None ].
Proof. vm_compute. reflexivity. Qed.

Lemma transition_cascades_witness :
  ∃ tg,
    transition VCR.parents false 47 (Some VCR.StateIdleFF) (VCR.msg VCR.FF)
      (VCR.active VCR.StateIdleRew)
    = after (fire (VCR.active VCR.StateIdleRew)
               (withEvent (VCR.msg VCR.FF) Event.Exit) VCR.StateIdleRew
             ++ fire (VCR.active VCR.StateIdleRew)
                  (withEvent (VCR.msg VCR.FF) Event.Entry) VCR.StateIdleFF)
        (forget (callAction VCR.parents false 46 (Some VCR.StateIdleFF)
                   (withEvent (VCR.msg VCR.FF) Event.Init)
                   (setState (setTarget (VCR.active VCR.StateIdleRew) tg)
                      (Some VCR.StateIdleFF)))).
Proof.
  assert (heap_ok (VCR.active VCR.StateIdleRew) = true) as Hok
    by (vm_compute; reflexivity).
  assert (S (length VCR.parents)
          + length (tab (VCR.active VCR.StateIdleRew)) ≤ 46) as Hf
    by (vm_compute; lia).
  apply (proj2 (transition_cascades VCR.parents false eq_refl 46
                  (Some VCR.StateIdleFF) (VCR.msg VCR.FF)
                  (VCR.active VCR.StateIdleRew) Hok Hf)
           VCR.StateIdleRew VCR.StateIdleFF VCR.StateIdle);
    (reflexivity || discriminate).
Defined.

Lemma bubbling_first_binding_witness :
  message (VCR.msg Event.ALL) VCR.parents false 46 (VCR.msg VCR.Play)
    (VCR.active VCR.StateIdleRew)
  = forget (callAction VCR.parents false 46 (Some VCR.StateIdle)
              (VCR.msg VCR.Play) (VCR.active VCR.StateIdleRew)).
Proof.
  assert (heap_ok (VCR.active VCR.StateIdleRew) = true) as Hok
    by (vm_compute; reflexivity).
  assert (S (length VCR.parents)
          + length (tab (VCR.active VCR.StateIdleRew)) ≤ 46) as Hf
    by (vm_compute; lia).
  assert ((Event.User ≤ event (VCR.msg VCR.Play))%N) as Hev
    by (vm_compute; discriminate).
  assert (path VCR.parents (Some VCR.StateIdleRew)
          = [VCR.StateIdleRew] ++ VCR.StateIdle :: []) as Hpath
    by (vm_compute; reflexivity).
  assert (lookup (VCR.active VCR.StateIdleRew) VCR.StateIdleRew
            (event (VCR.msg VCR.Play)) = None) as Hnone
    by (vm_compute; reflexivity).
  assert (is_Some (lookup (VCR.active VCR.StateIdleRew) VCR.StateIdle
                     (event (VCR.msg VCR.Play)))) as Hsome
    by (vm_compute; eexists; reflexivity).
  apply (proj1 (bubbling_first_binding (VCR.msg Event.ALL) VCR.parents
                  false eq_refl 46 (VCR.msg VCR.Play)
                  (VCR.active VCR.StateIdleRew) VCR.StateIdleRew
                  [VCR.StateIdleRew] VCR.StateIdle [] Hok Hf eq_refl Hev
                  Hpath (Forall_cons_2 _ _ _ Hnone (Forall_nil_2 _))
                  Hsome)).
Defined.

Lemma stop_unwinds_witness :
  message (VCR.msg Event.ALL) VCR.parents false 47 (VCR.msg Event.Stop)
    (VCR.active VCR.StatePlayingPlay)
  = Ret (tt, setState (setTarget (VCR.active VCR.StatePlayingPlay) None) None,
         flat_map (fire (VCR.active VCR.StatePlayingPlay)
                     (withEvent (VCR.msg Event.ALL) Event.Exit))
           [VCR.StatePlayingPlay; VCR.StatePlaying]).
Proof.
  assert (heap_ok (VCR.active VCR.StatePlayingPlay) = true) as Hok
    by (vm_compute; reflexivity).
  assert (S (S (length VCR.parents)
             + length (tab (VCR.active VCR.StatePlayingPlay))) ≤ 47) as Hf
    by (vm_compute; lia).
  assert (state (VCR.active VCR.StatePlayingPlay) ≠ None) as Hst
    by discriminate.
  apply (proj1 (stop_unwinds (VCR.msg Event.ALL) VCR.parents false eq_refl
                  47 (VCR.msg Event.Stop) (VCR.active VCR.StatePlayingPlay)
                  Hok Hf Hst eq_refl)).
Defined.

Lemma C4_witness :
  ∃ tg tr,
    start (VCR.msg Event.ALL) VCR.parents false 58 VCR.StateIdle VCR.vcr
    = Ret (tt, setState (setTarget (linkAll VCR.vcr) tg)
                 (Some VCR.StateIdleStop), tr)
    ∧ (request (linkAll VCR.vcr) VCR.StateIdleStop
         (withEvent (VCR.msg Event.ALL) Event.Init) = None
       ∨ request (linkAll VCR.vcr) VCR.StateIdleStop
           (withEvent (VCR.msg Event.ALL) Event.Init)
         = Some VCR.StateIdleStop).
Proof.
  assert (unlinked VCR.vcr = true) as Hfresh by (vm_compute; reflexivity).
  assert (S (S (length VCR.parents) + length (tab VCR.vcr)
             + length VCR.parents) ≤ 58) as Hf by (vm_compute; lia).
  assert (descends VCR.parents (linkAll VCR.vcr)
            (withEvent (VCR.msg Event.ALL) Event.Init)
            VCR.StateIdle VCR.StateIdleStop) as Hd.
  { apply (descends_step _ _ _ VCR.StateIdle VCR.StateIdleStop);
      [vm_compute; reflexivity|discriminate|reflexivity|].
    apply descends_stop. left. vm_compute. reflexivity. }
  exact (proj1 (C4_start_default_descent (VCR.msg Event.ALL) VCR.parents
                  false eq_refl 58 VCR.StateIdle VCR.vcr Hfresh eq_refl
                  eq_refl Hf) VCR.StateIdleStop Hd).
Defined.


Lemma unbound_event_dropped_witness :
  ∃ tg,
    message (VCR.msg Event.ALL) VCR.parents false 46 (VCR.msg VCR.Pause)
      (VCR.active VCR.StateIdleStop)
    = Ret (tt, setTarget (VCR.active VCR.StateIdleStop) tg, []).
Proof.
  assert (heap_ok (VCR.active VCR.StateIdleStop) = true) as Hok
    by (vm_compute; reflexivity).
  assert (S (length VCR.parents)
          + length (tab (VCR.active VCR.StateIdleStop)) ≤ 46) as Hf
    by (vm_compute; lia).
  assert ((Event.User ≤ event (VCR.msg VCR.Pause))%N) as Hev
    by (vm_compute; discriminate).
  assert (Forall (λ s, lookup (VCR.active VCR.StateIdleStop) s
                         (event (VCR.msg VCR.Pause)) = None)
            (path VCR.parents (Some VCR.StateIdleStop))) as Hall
    by (vm_compute; repeat constructor).
  exact (unbound_event_dropped (VCR.msg Event.ALL) VCR.parents false
           eq_refl 46 (VCR.msg VCR.Pause) (VCR.active VCR.StateIdleStop)
           VCR.StateIdleStop Hok Hf eq_refl Hev Hall).
Defined.

Lemma C8_witness :
  ∃ r, getRoot VCR.parents 12 (Some VCR.StateIdleRew) (Some VCR.StateIdleFF)
       = Ret r
    ∧ (∀ c, r = Some c →
            ancestor VCR.parents c (Some VCR.StateIdleRew)
            ∧ ancestor VCR.parents c (Some VCR.StateIdleFF))
    ∧ (∀ c, ancestor VCR.parents c (Some VCR.StateIdleRew) →
            ancestor VCR.parents c (Some VCR.StateIdleFF) →
            ∃ d, r = Some d ∧ ancestor VCR.parents c (Some d))
    ∧ (Some VCR.StateIdleRew = None ∨ Some VCR.StateIdleFF = None → r = None).
Proof.
  assert (S (length VCR.parents) ≤ 12) as Hf by (vm_compute; lia).
  exact (C8_getRoot_least_common_ancestor VCR.parents eq_refl
           (Some VCR.StateIdleRew) (Some VCR.StateIdleFF) 12 Hf).
Defined.


Lemma C10_witness :
  message (VCR.msg Event.ALL) VCR.parents true 46 (VCR.msg Event.Init)
    (VCR.active VCR.StateOff)
  = Ret (tt, VCR.active VCR.StateOff, []).
Proof.
  assert (state (VCR.active VCR.StateOff) ≠ None) as Hst by discriminate.
  assert ((event (VCR.msg Event.Init) < Event.User)%N) as Hev
    by (vm_compute; reflexivity).
  assert (event (VCR.msg Event.Init) ≠ Event.Stop) as Hne by discriminate.
  exact (C10_reserved_event_ignored (VCR.msg Event.ALL) VCR.parents true 46
           (VCR.msg Event.Init) (VCR.active VCR.StateOff) Hst Hev Hne).
Defined.

(** ** Where the code departs from the description *)

(** Against C4 as worded: the Init binding of Root is a handler that asks
    for the child; [start] ends in the child, where following only
    direct-transition bindings of Init stays at Root. *)
Lemma C4_counterexample :
  ∃ sm' tr,
    start (VCR.msg Event.ALL) InitHandler.parents false 8 0
      InitHandler.machine = Ret (tt, sm', tr)
    ∧ state sm' = Some 1
    ∧ follows_direct_init (linkAll InitHandler.machine) 0 0
    ∧ ¬ follows_direct_init (linkAll InitHandler.machine) 0 1.
Proof.
  eexists _, _. split; [vm_compute; reflexivity|]. split; [reflexivity|].
  assert (lookup (linkAll InitHandler.machine) 0 Event.Init = Some 0) as Hl
    by (vm_compute; reflexivity).
  assert (tab (linkAll InitHandler.machine) !! 0
          = Some (VCR.on 0 Event.Init (λ _, Some 1))) as Ht
    by (vm_compute; reflexivity).
  split.
  - apply follows_stop. intros i a t Hi Ha Hact.
    rewrite Hl in Hi. injection Hi as <-. rewrite Ht in Ha.
    injection Ha as <-. discriminate Hact.
  - intros H. inversion H as [|s i a t leaf Hi Ha Hact]; subst.
    rewrite Hl in Hi. injection Hi as <-. rewrite Ht in Ha.
    injection Ha as <-. discriminate Hact.
Qed.


(** C6.  Linking is not idempotent.  After a first [start] and a Stop
    the only action of the table is linked and its [next] is [nullptr],
    as for every last element of a list; the second [start] links it
    again, behind itself.  The list of the state is then a cycle: the
    lookup of an event that the action does not match never returns, and
    neither does the second [start]. *)
Theorem C6_relinking_builds_a_cycle :
  state Restart.stopped = None
  ∧ bindings Restart.stopped 0 = [0]
  ∧ next <$> tab Restart.stopped !! 0 = Some None
  ∧ next <$> tab (linkAll Restart.stopped) !! 0 = Some (Some 0)
  ∧ linkAll Restart.stopped ≠ Restart.stopped
  ∧ (∀ l, ¬ queue_list (tab (linkAll Restart.stopped))
              (queue (linkAll Restart.stopped) !! 0) l)
  ∧ (∀ fuel, getAction fuel (linkAll Restart.stopped) (Some 0) Event.Entry
             = Fault OutOfFuel)
  ∧ (∀ fuel, start (VCR.msg Event.ALL) Restart.parents false fuel 0
               Restart.stopped = Fault OutOfFuel).
Proof.
  split; [vm_compute; reflexivity|]. split; [vm_compute; reflexivity|].
  split; [vm_compute; reflexivity|]. split; [vm_compute; reflexivity|].
  split; [vm_compute; discriminate|].
  assert (tab (linkAll Restart.stopped) !! 0
          = Some {| owner := 0; aevent := Event.User; action := VState 1;
                    next := Some 0 |}) as Ht by (vm_compute; reflexivity).
  assert (queue (linkAll Restart.stopped) !! 0 = Some 0) as Hq
    by (vm_compute; reflexivity).
  assert (∀ fuel, getAction fuel (linkAll Restart.stopped) (Some 0)
                    Event.Entry = Fault OutOfFuel) as Hloop.
  { intros fuel. unfold getAction. rewrite Hq.
    induction fuel as [|fuel IH]; simpl; rewrite Ht; simpl; [done|].
    exact IH. }
  split; [|split; [done|]].
  - rewrite Hq. intros l. induction l as [|i l IH]; intros H.
    + inversion H.
    + inversion H as [|i' a l' Ha Hl]; subst. rewrite Ht in Ha.
      injection Ha as <-. simpl in Hl. by apply IH.
  - intros fuel.
    rewrite start_eq by reflexivity.
    assert (state (linkAll Restart.stopped) = None) as Hs
      by (vm_compute; reflexivity).
    destruct fuel as [|fuel]; [done|]. rewrite transition_eq, Hs.
    destruct fuel as [|fuel]; [done|].
    assert (getRoot Restart.parents (S fuel) None (Some 0) = Ret None) as ->
      by (by destruct fuel).
    rewrite exit_loop_eq, decide_True by done.
    rewrite entry_loop_eq, decide_False by (by rewrite Hs).
    rewrite Hs.
    assert (getNext Restart.parents (S fuel) None (Some 0) = Ret (Some 0))
      as -> by done.
    unfold callHandler.
    erewrite bind_Ret; [|reflexivity].
    erewrite bind_Fault; [done|].
    unfold lift.
    replace (getAction (S fuel) _ _ _) with (@Fault (option nat) OutOfFuel);
      [done|].
    symmetry. exact (Hloop (S fuel)).
Qed.

(** *** A machine that was started twice

    The second [start] finds [next == nullptr] in the first-declared
    action of Parent and of Leaf, the last element of their lists, and
    links each of them again, in front of the list that it ends: both
    lists are cycles afterwards.  The lookups of Entry and of Init still
    find their bindings, so the second [start] returns and the machine
    is active at Leaf; a lookup at Leaf of an event that Leaf does not
    bind goes round the cycle and never returns. *)

Lemma relinked_reached : Relinked.reached.
Proof.
  split; [eexists; vm_compute; reflexivity|].
  split; eexists; vm_compute; reflexivity.
Qed.

Lemma relinked_tree : tree_ok Relinked.parents = true.
Proof. reflexivity. Qed.

Lemma relinked_leaf_lookup tg event_ :
  event_ ≠ Event.Entry → event_ ≠ Event.Init → event_ ≠ Relinked.First →
  event_ ≠ Event.ALL →
  ∀ fuel, getAction fuel (setTarget Relinked.restarted tg)
            (Some Relinked.Leaf) event_ = Fault OutOfFuel.
Proof.
  intros H1 H2 H3 H4 fuel.
  assert (tab Relinked.restarted !! 4
          = Some {| owner := 1; aevent := Event.Entry;
                    action := VHandler VCR.puts; next := Some 6 |}) as Ht4
    by (vm_compute; reflexivity).
  assert (tab Relinked.restarted !! 5
          = Some {| owner := 1; aevent := Event.Init;
                    action := VHandler VCR.puts; next := Some 4 |}) as Ht5
    by (vm_compute; reflexivity).
  assert (tab Relinked.restarted !! 6
          = Some {| owner := 1; aevent := Relinked.First;
                    action := VState 2; next := Some 5 |}) as Ht6
    by (vm_compute; reflexivity).
  assert (queue Relinked.restarted !! Relinked.Leaf = Some 4) as Hq
    by (vm_compute; reflexivity).
  unfold getAction. change (tab (setTarget ?sm _)) with (tab sm).
  change (queue (setTarget ?sm _)) with (queue sm). rewrite Hq.
  apply (getAction_loop_cycle _ (λ i, i = 4 ∨ i = 5 ∨ i = 6)); [|by left].
  intros i [-> | [-> | ->]].
  - eexists _, 6. split; [exact Ht4|]. simpl.
    split; [congruence|]. split; [done|]. split; [done|]. by right; right.
  - eexists _, 4. split; [exact Ht5|]. simpl.
    split; [congruence|]. split; [done|]. split; [done|]. by left.
  - eexists _, 5. split; [exact Ht6|]. simpl.
    split; [congruence|]. split; [done|]. split; [done|]. by right; left.
Qed.

Lemma relinked_transition tg next_ msg :
  ¬ ancestor Relinked.parents Relinked.Leaf next_ →
  (∀ fuel, fuel < 5 →
     transition Relinked.parents false fuel next_ msg
       (setTarget Relinked.restarted tg) = Fault OutOfFuel) →
  ∀ fuel, transition Relinked.parents false fuel next_ msg
            (setTarget Relinked.restarted tg) = Fault OutOfFuel.
Proof.
  intros Hna Hsmall fuel.
  destruct (decide (fuel < 5)) as [Hlt|Hge]; [by apply Hsmall|].
  apply (transition_exit_diverges Relinked.parents false relinked_tree
           next_ msg _ Relinked.Leaf).
  - vm_compute; reflexivity.
  - done.
  - intros f. by apply relinked_leaf_lookup.
  - simpl. lia.
Qed.

Lemma relinked_to_other tg fuel :
  transition Relinked.parents false fuel (Some Relinked.Other)
    (VCR.msg Relinked.First) (setTarget Relinked.restarted tg)
  = Fault OutOfFuel.
Proof.
  apply relinked_transition.
  - intros H. inversion H as [|s H']. inversion H'.
  - intros f Hf.
    destruct f as [|[|[|[|[|f]]]]]; [vm_compute; reflexivity..|lia].
Qed.

Lemma relinked_to_none tg fuel :
  transition Relinked.parents false fuel None (VCR.msg Event.ALL)
    (setTarget Relinked.restarted tg)
  = Fault OutOfFuel.
Proof.
  apply relinked_transition.
  - intros H. inversion H.
  - intros f Hf.
    destruct f as [|[|[|[|[|f]]]]]; [vm_compute; reflexivity..|lia].
Qed.

(** C1.  On the machine started twice the cascades of a transition do
    not run.  The machine is reached by [start], Stop and [start], which
    all return, and is active at Leaf.  The user event First resolves at
    Leaf to the direct transition to Other, whose cascade is to exit
    Leaf and Parent -- Parent binds a handler to Exit -- and to enter
    Other.  The first step, the lookup of Exit at Leaf, goes round the
    cycle that the second linking made of the list of Leaf (the defect
    of [Action::link] on a second [start]): whatever the fuel, neither
    the transition nor the dispatch returns, and no Exit or Entry
    handler runs. *)
Theorem C1_restart_transition_never_returns :
  Relinked.reached
  ∧ state Relinked.restarted = Some Relinked.Leaf
  ∧ parent Relinked.parents Relinked.Leaf = Some Relinked.Parent
  ∧ (∃ a, tab Relinked.restarted !! 1 = Some a
          ∧ owner a = Relinked.Parent ∧ aevent a = Event.Exit
          ∧ action a = VHandler VCR.puts)
  ∧ (∀ fuel tg,
       transition Relinked.parents false fuel (Some Relinked.Other)
         (VCR.msg Relinked.First) (setTarget Relinked.restarted tg)
       = Fault OutOfFuel)
  ∧ (∀ fuel,
       message (VCR.msg Event.ALL) Relinked.parents false fuel
         (VCR.msg Relinked.First) Relinked.restarted = Fault OutOfFuel).
Proof.
  assert (state Relinked.restarted = Some Relinked.Leaf) as Hst
    by (vm_compute; reflexivity).
  split; [exact relinked_reached|]. split; [exact Hst|].
  split; [reflexivity|].
  split.
  { eexists. split; [vm_compute; reflexivity|].
    split; [reflexivity|]. split; reflexivity. }
  split; [intros fuel tg; apply relinked_to_other|].
  intros fuel.
  rewrite message_eq; [|by rewrite Hst|by right].
  change ((Event.User <=? event (VCR.msg Relinked.First))%N) with true.
  cbv iota. rewrite Hst.
  destruct fuel as [|n]; [reflexivity|]. rewrite eventHandler_loop_eq.
  assert (tab Relinked.restarted !! 4
          = Some {| owner := 1; aevent := Event.Entry;
                    action := VHandler VCR.puts; next := Some 6 |}) as Ht4
    by (vm_compute; reflexivity).
  assert (tab Relinked.restarted !! 6
          = Some {| owner := 1; aevent := Relinked.First;
                    action := VState 2; next := Some 5 |}) as Ht6
    by (vm_compute; reflexivity).
  assert (queue Relinked.restarted !! Relinked.Leaf = Some 4) as Hq
    by (vm_compute; reflexivity).
  assert (callAction Relinked.parents false (S n) (Some Relinked.Leaf)
            (VCR.msg Relinked.First) Relinked.restarted = Fault OutOfFuel)
    as ->; [|reflexivity].
  eapply callAction_direct_fault;
    [|exact Ht6|reflexivity|discriminate|discriminate|
     apply relinked_to_other].
  unfold getAction. rewrite Hq.
  rewrite (getAction_loop_skip _ _ _ _ _ Ht4) by done.
  apply (getAction_loop_hit _ _ _ _ _ Ht6). by left.
Qed.

(** C2.  On the machine started twice a user event does not bubble.
    The machine is active at Leaf; no action of Leaf binds the event
    Second or ALL, and Parent, the parent of Leaf, binds a handler to
    Second.  The event ought to pass from Leaf to Parent and be consumed
    there.  The lookup at Leaf goes round the cycle that the second
    linking made of its list (the defect of [Action::link] on a second
    [start]): whatever the fuel, the dispatch does not return, and the
    binding of Parent is never reached. *)
Theorem C2_restart_event_never_bubbles :
  Relinked.reached
  ∧ state Relinked.restarted = Some Relinked.Leaf
  ∧ parent Relinked.parents Relinked.Leaf = Some Relinked.Parent
  ∧ Forall (λ a, owner a = Relinked.Leaf →
                 aevent a ≠ Relinked.Second ∧ aevent a ≠ Event.ALL)
      (tab Relinked.restarted)
  ∧ (∃ a, tab Relinked.restarted !! 3 = Some a
          ∧ owner a = Relinked.Parent ∧ aevent a = Relinked.Second
          ∧ action a = VHandler VCR.puts)
  ∧ (∀ fuel,
       message (VCR.msg Event.ALL) Relinked.parents false fuel
         (VCR.msg Relinked.Second) Relinked.restarted = Fault OutOfFuel).
Proof.
  split; [exact relinked_reached|].
  split; [vm_compute; reflexivity|]. split; [reflexivity|].
  split.
  { assert ((λ a, (owner a, aevent a)) <$> tab Relinked.restarted
            = [ (0, Event.Entry); (0, Event.Exit); (0, Event.Init);
                (0, Relinked.Second); (1, Event.Entry); (1, Event.Init);
                (1, Relinked.First) ]) as Hev
      by (vm_compute; reflexivity).
    apply Forall_fmap with
      (f := λ a, (owner a, aevent a))
      (P := λ p, p.1 = Relinked.Leaf →
                 p.2 ≠ Relinked.Second ∧ p.2 ≠ Event.ALL).
    rewrite Hev. clear Hev.
    repeat (constructor;
            [first [by intros [=]|intros _; split; discriminate]|]).
    constructor. }
  split.
  { eexists. split; [vm_compute; reflexivity|].
    split; [reflexivity|]. split; reflexivity. }
  assert (state Relinked.restarted = Some Relinked.Leaf) as Hst
    by (vm_compute; reflexivity).
  apply (message_lookup_diverges _ _ _ _ _ Relinked.Leaf Hst);
    [discriminate|].
  intros fuel.
  rewrite <- (setTarget_id Relinked.restarted). by apply relinked_leaf_lookup.
Qed.

(** C3.  On the machine started twice Stop does not halt the engine.
    The machine is active at Leaf, and its lists are not well formed.
    Stop ought to resolve Exit at Leaf and at Parent and leave the
    machine halted.  The lookup of Exit at Leaf goes round the cycle
    that the second linking made of its list (the defect of
    [Action::link] on a second [start]): whatever the fuel, the dispatch
    of Stop does not return. *)
Theorem C3_restart_stop_never_returns :
  Relinked.reached
  ∧ state Relinked.restarted = Some Relinked.Leaf
  ∧ heap_ok Relinked.restarted = false
  ∧ (∀ fuel,
       message (VCR.msg Event.ALL) Relinked.parents false fuel
         (VCR.msg Event.Stop) Relinked.restarted = Fault OutOfFuel).
Proof.
  split; [exact relinked_reached|].
  split; [vm_compute; reflexivity|]. split; [vm_compute; reflexivity|].
  intros fuel.
  assert (state Relinked.restarted = Some Relinked.Leaf) as Hst
    by (vm_compute; reflexivity).
  rewrite message_eq; [|by rewrite Hst|by left].
  change ((Event.User <=? event (VCR.msg Event.Stop))%N) with false.
  cbv iota.
  rewrite <- (setTarget_id Relinked.restarted). apply relinked_to_none.
Qed.

(** C7.  On the machine started twice an unbound user event is not
    dropped.  The machine is active at Leaf, and no action of the table
    binds the event Third or ALL.  The dispatch ought to return with
    nothing changed.  The lookup at Leaf goes round the cycle that the
    second linking made of its list (the defect of [Action::link] on a
    second [start]): whatever the fuel, the dispatch does not return. *)
Theorem C7_restart_unbound_event_never_returns :
  Relinked.reached
  ∧ state Relinked.restarted = Some Relinked.Leaf
  ∧ Forall (λ a, aevent a ≠ Relinked.Third ∧ aevent a ≠ Event.ALL)
      (tab Relinked.restarted)
  ∧ (∀ fuel,
       message (VCR.msg Event.ALL) Relinked.parents false fuel
         (VCR.msg Relinked.Third) Relinked.restarted = Fault OutOfFuel).
Proof.
  split; [exact relinked_reached|].
  split; [vm_compute; reflexivity|].
  split.
  { assert (aevent <$> tab Relinked.restarted
            = [Event.Entry; Event.Exit; Event.Init; Relinked.Second;
               Event.Entry; Event.Init; Relinked.First]) as Hev
      by (vm_compute; reflexivity).
    apply Forall_fmap with (f := aevent)
                           (P := λ e, e ≠ Relinked.Third ∧ e ≠ Event.ALL).
    rewrite Hev. clear Hev.
    repeat (constructor; [split; discriminate|]). constructor. }
  assert (state Relinked.restarted = Some Relinked.Leaf) as Hst
    by (vm_compute; reflexivity).
  apply (message_lookup_diverges _ _ _ _ _ Relinked.Leaf Hst);
    [discriminate|].
  intros fuel.
  rewrite <- (setTarget_id Relinked.restarted). by apply relinked_leaf_lookup.
Qed.

(** ** The further properties on the recorder *)

Lemma getLevel_counts_chain_witness :
  ∃ l, chain VCR.parents (Some VCR.StateIdleRew) l
    ∧ getLevel VCR.parents 12 (Some VCR.StateIdleRew)
      = Ret (Z.of_nat (length l)).
Proof.
  assert (S (length VCR.parents) ≤ 12) as Hf by (vm_compute; lia).
  exact (getLevel_counts_chain VCR.parents eq_refl (Some VCR.StateIdleRew)
           12 Hf).
Defined.

Lemma getNext_child_towards_witness :
  ∃ r, getNext VCR.parents 12 (Some VCR.StateIdle) (Some VCR.StateIdleRew)
       = Ret r
    ∧ r = find (λ c, bool_decide (Some VCR.StateIdle = parent VCR.parents c))
            (path VCR.parents (Some VCR.StateIdleRew))
    ∧ (∀ c, r = Some c →
            parent VCR.parents c = Some VCR.StateIdle
            ∧ ancestor VCR.parents c (Some VCR.StateIdleRew))
    ∧ (r = None ↔
       ∀ c, ancestor VCR.parents c (Some VCR.StateIdleRew) →
            parent VCR.parents c ≠ Some VCR.StateIdle).
Proof.
  assert (S (length VCR.parents) ≤ 12) as Hf by (vm_compute; lia).
  exact (getNext_child_towards VCR.parents eq_refl (Some VCR.StateIdle)
           (Some VCR.StateIdleRew) 12 Hf).
Defined.

Lemma linkAll_reverse_declaration_witness :
  bindings (linkAll VCR.vcr) VCR.StateIdle
  = rev (declared (tab VCR.vcr) VCR.StateIdle).
Proof.
  assert (unlinked VCR.vcr = true) as Hfresh by (vm_compute; reflexivity).
  exact (linkAll_reverse_declaration VCR.vcr VCR.StateIdle Hfresh).
Defined.

Lemma add_action_overrides_witness :
  lookup (linkAll (add_action VCR.StateOff VCR.Power
                     (VState VCR.StateOff) VCR.vcr))
    VCR.StateOff VCR.Power = Some (length (tab VCR.vcr))
  ∧ action <$> tab (linkAll (add_action VCR.StateOff VCR.Power
                               (VState VCR.StateOff) VCR.vcr))
                 !! length (tab VCR.vcr)
    = Some (VState VCR.StateOff).
Proof.
  assert (unlinked VCR.vcr = true) as Hfresh by (vm_compute; reflexivity).
  exact (add_action_overrides VCR.vcr VCR.StateOff VCR.Power
           (VState VCR.StateOff) Hfresh).
Defined.

Lemma getRoot_comm_witness :
  getRoot VCR.parents 12 (Some VCR.StateIdleRew) (Some VCR.StatePlayingPlay)
  = getRoot VCR.parents 12 (Some VCR.StatePlayingPlay)
      (Some VCR.StateIdleRew).
Proof.
  assert (S (length VCR.parents) ≤ 12) as Hf by (vm_compute; lia).
  exact (getRoot_comm VCR.parents eq_refl (Some VCR.StateIdleRew)
           (Some VCR.StatePlayingPlay) 12 Hf).
Defined.

Lemma getRoot_of_ancestor_witness :
  getRoot VCR.parents 12 (Some VCR.StateIdle) (Some VCR.StateIdleRew)
  = Ret (Some VCR.StateIdle).
Proof.
  assert (S (length VCR.parents) ≤ 12) as Hf by (vm_compute; lia).
  assert (ancestor VCR.parents VCR.StateIdle (Some VCR.StateIdleRew)) as Ha
    by (apply ancestor_up; apply ancestor_self).
  exact (getRoot_of_ancestor VCR.parents eq_refl VCR.StateIdle
           (Some VCR.StateIdleRew) 12 Hf Ha).
Defined.

Lemma callHandler_resolves_witness :
  ∃ v sm' tr,
    callHandler 34 (Some VCR.StateOff) (VCR.msg Event.Exit)
      (VCR.active VCR.StateOff) = Ret (v, sm', tr)
    ∧ match lookup (VCR.active VCR.StateOff) VCR.StateOff
              (event (VCR.msg Event.Exit)) with
      | None => v = None ∧ sm' = VCR.active VCR.StateOff ∧ tr = []
      | Some i =>
          ∃ a, tab (VCR.active VCR.StateOff) !! i = Some a
            ∧ match action a with
              | VState t =>
                  v = Some t ∧ sm' = VCR.active VCR.StateOff ∧ tr = []
              | VHandler handler_ =>
                  v = Some VCR.StateOff
                  ∧ tr = [Fired VCR.StateOff i (VCR.msg Event.Exit)]
                  ∧ sm' = match handler_ (VCR.msg Event.Exit) with
                          | Some t =>
                              setTarget (VCR.active VCR.StateOff) (Some t)
                          | None => VCR.active VCR.StateOff
                          end
              end
      end.
Proof.
  assert (heap_ok (VCR.active VCR.StateOff) = true) as Hok
    by (vm_compute; reflexivity).
  assert (length (tab (VCR.active VCR.StateOff)) ≤ 34) as Hf
    by (vm_compute; lia).
  exact (callHandler_resolves 34 VCR.StateOff (VCR.msg Event.Exit)
           (VCR.active VCR.StateOff) Hok Hf).
Defined.

Lemma message_halted_witness :
  message (VCR.msg Event.ALL) VCR.parents true 1 (VCR.msg VCR.Power)
    VCR.linked
  = Ret (tt, VCR.linked, []).
Proof.
  assert (1 ≤ 1) as Hf by lia.
  exact (message_halted (VCR.msg Event.ALL) VCR.parents true 1
           (VCR.msg VCR.Power) VCR.linked eq_refl Hf).
Defined.

Lemma start_when_active_witness :
  start (VCR.msg Event.ALL) VCR.parents false 46 VCR.StateOff
    (VCR.active VCR.StateIdleStop)
  = Fault AssertionFailed.
Proof.
  assert (state (VCR.active VCR.StateIdleStop) ≠ None) as Hst
    by discriminate.
  exact (start_when_active (VCR.msg Event.ALL) VCR.parents false 46
           VCR.StateOff (VCR.active VCR.StateIdleStop) Hst).
Defined.

Lemma start_at_nested_state_witness :
  start (VCR.msg Event.ALL) VCR.parents false 46 VCR.StateIdleStop VCR.vcr
  = Fault AssertionFailed.
Proof.
  assert (parent VCR.parents VCR.StateIdleStop ≠ None) as Hp by discriminate.
  exact (proj1 (start_at_nested_state (VCR.msg Event.ALL) VCR.parents false
                  eq_refl 46 VCR.StateIdleStop VCR.vcr eq_refl Hp) eq_refl).
Defined.

Lemma transition_target_outside_handler_witness :
  (transition_target VCR.StateRecording
   ≫= λ _, message (VCR.msg Event.ALL) VCR.parents false 46
             (VCR.msg VCR.Play)) (VCR.active VCR.StateIdleStop)
  = message (VCR.msg Event.ALL) VCR.parents false 46 (VCR.msg VCR.Play)
      (VCR.active VCR.StateIdleStop).
Proof.
  assert (state (VCR.active VCR.StateIdleStop) ≠ None) as Hst
    by discriminate.
  assert (event (VCR.msg VCR.Play) = Event.Stop
          ∨ (Event.User ≤ event (VCR.msg VCR.Play))%N) as Hev
    by (right; vm_compute; discriminate).
  exact (transition_target_outside_handler (VCR.msg Event.ALL) VCR.parents
           false 46 (VCR.msg VCR.Play) (VCR.active VCR.StateIdleStop)
           VCR.StateRecording Hst Hev).
Defined.

Lemma message_keeps_lists_witness :
  ∃ sm' tr,
    message (VCR.msg Event.ALL) VCR.parents false 60 (VCR.msg VCR.Power)
      (VCR.active VCR.StateOff) = Ret (tt, sm', tr)
    ∧ tab sm' = tab (VCR.active VCR.StateOff)
    ∧ queue sm' = queue (VCR.active VCR.StateOff).
Proof.
  assert (∃ sm' tr,
            message (VCR.msg Event.ALL) VCR.parents false 60
              (VCR.msg VCR.Power) (VCR.active VCR.StateOff)
            = Ret (tt, sm', tr)) as (sm' & tr & Hm)
    by (eexists _, _; vm_compute; reflexivity).
  exists sm', tr. split; [exact Hm|].
  exact (message_keeps_lists (VCR.msg Event.ALL) VCR.parents false 60
           (VCR.msg VCR.Power) None (VCR.active VCR.StateOff) tt sm' tr
           (or_introl Hm)).
Defined.

Lemma lists_stay_well_formed_witness :
  ∃ sm' tr,
    start (VCR.msg Event.ALL) VCR.parents false 60 VCR.StateOff VCR.vcr
    = Ret (tt, sm', tr)
    ∧ heap_ok sm' = true.
Proof.
  assert (∃ sm' tr,
            start (VCR.msg Event.ALL) VCR.parents false 60 VCR.StateOff
              VCR.vcr = Ret (tt, sm', tr)) as (sm' & tr & Hs)
    by (eexists _, _; vm_compute; reflexivity).
  assert (unlinked VCR.vcr = true) as Hfresh by (vm_compute; reflexivity).
  exists sm', tr. split; [exact Hs|].
  exact (lists_stay_well_formed (VCR.msg Event.ALL) VCR.parents false 60
           VCR.StateOff (VCR.msg Event.ALL) VCR.vcr tt sm' tr
           (or_introl (conj Hfresh (conj eq_refl Hs)))).
Defined.

Lemma self_binding_consumes_witness :
  message (VCR.msg Event.ALL) Ignoring.parents false 5 (VCR.msg Event.User)
    Ignoring.machine
  = Ret (tt, setTarget Ignoring.machine (Some 1), []).
Proof.
  assert (heap_ok Ignoring.machine = true) as Hok
    by (vm_compute; reflexivity).
  assert (S (length Ignoring.parents) + length (tab Ignoring.machine) ≤ 5)
    as Hf by (vm_compute; lia).
  assert ((Event.User ≤ event (VCR.msg Event.User))%N) as Hev
    by (vm_compute; discriminate).
  assert (path Ignoring.parents (Some 1) = [] ++ 1 :: [0]) as Hpath
    by (vm_compute; reflexivity).
  assert (lookup Ignoring.machine 1 (event (VCR.msg Event.User)) = Some 1)
    as Hi by (vm_compute; reflexivity).
  assert (tab Ignoring.machine !! 1
          = Some {| owner := 1; aevent := Event.User; action := VState 1;
                    next := None |}) as Hact by (vm_compute; reflexivity).
  exact (self_binding_consumes (VCR.msg Event.ALL) Ignoring.parents false
           eq_refl 5 (VCR.msg Event.User) Ignoring.machine 1 [] 1 [0] 1 _
           Hok Hf eq_refl Hev Hpath (Forall_nil_2 _) Hi Hact eq_refl).
Defined.

Lemma message_reaches_descent_leaf_witness :
  ∃ tg tr,
    message (VCR.msg Event.ALL) VCR.parents false 58 (VCR.msg VCR.Play)
      (VCR.active VCR.StateIdleStop)
    = Ret (tt, setState (setTarget (VCR.active VCR.StateIdleStop) tg)
                 (Some VCR.StatePlayingPlay), tr).
Proof.
  assert (heap_ok (VCR.active VCR.StateIdleStop) = true) as Hok
    by (vm_compute; reflexivity).
  assert (S (S (length VCR.parents)
             + length (tab (VCR.active VCR.StateIdleStop))
             + length VCR.parents) ≤ 58) as Hf by (vm_compute; lia).
  assert ((Event.User ≤ event (VCR.msg VCR.Play))%N) as Hev
    by (vm_compute; discriminate).
  assert (path VCR.parents (Some VCR.StateIdleStop)
          = [VCR.StateIdleStop] ++ VCR.StateIdle :: []) as Hpath
    by (vm_compute; reflexivity).
  assert (lookup (VCR.active VCR.StateIdleStop) VCR.StateIdleStop
            (event (VCR.msg VCR.Play)) = None) as Hnone
    by (vm_compute; reflexivity).
  assert (request (VCR.active VCR.StateIdleStop) VCR.StateIdle
            (VCR.msg VCR.Play) = Some VCR.StatePlaying) as Hreq
    by (vm_compute; reflexivity).
  assert (VCR.StatePlaying ≠ VCR.StateIdle) as Hne by discriminate.
  assert (descends VCR.parents (VCR.active VCR.StateIdleStop)
            (withEvent (VCR.msg VCR.Play) Event.Init)
            VCR.StatePlaying VCR.StatePlayingPlay) as Hd.
  { apply (descends_step _ _ _ VCR.StatePlaying VCR.StatePlayingPlay);
      [vm_compute; reflexivity|discriminate|reflexivity|].
    apply descends_stop. left. vm_compute. reflexivity. }
  exact (message_reaches_descent_leaf (VCR.msg Event.ALL) VCR.parents false
           eq_refl 58 (VCR.msg VCR.Play) (VCR.active VCR.StateIdleStop)
           VCR.StateIdleStop [VCR.StateIdleStop] VCR.StateIdle []
           VCR.StatePlaying VCR.StatePlayingPlay Hok Hf eq_refl Hev Hpath
           (Forall_cons_2 _ _ _ Hnone (Forall_nil_2 _)) Hreq Hne Hd).
Defined.

Lemma message_terminates_witness :
  message (VCR.msg Event.ALL) VCR.parents false 58 (VCR.msg VCR.Play)
    (VCR.active VCR.StateIdleStop) = Fault AssertionFailed
  ∨ ∃ sm' tr,
      message (VCR.msg Event.ALL) VCR.parents false 58 (VCR.msg VCR.Play)
        (VCR.active VCR.StateIdleStop) = Ret (tt, sm', tr).
Proof.
  assert (heap_ok (VCR.active VCR.StateIdleStop) = true) as Hok
    by (vm_compute; reflexivity).
  assert (S (S (length VCR.parents)
             + length (tab (VCR.active VCR.StateIdleStop))
             + length VCR.parents) ≤ 58) as Hf by (vm_compute; lia).
  assert (state (VCR.active VCR.StateIdleStop) ≠ None) as Hst
    by discriminate.
  assert (event (VCR.msg VCR.Play) = Event.Stop
          ∨ (Event.User ≤ event (VCR.msg VCR.Play))%N) as Hev
    by (right; vm_compute; discriminate).
  exact (message_terminates (VCR.msg Event.ALL) VCR.parents false eq_refl
           58 (VCR.msg VCR.Play) (VCR.active VCR.StateIdleStop) eq_refl Hok
           Hst Hev Hf).
Defined.

Lemma transition_along_branch_witness :
  ∃ tg,
    transition VCR.parents false 47 (Some VCR.StateIdle) (VCR.msg VCR.Stop)
      (VCR.active VCR.StateIdleRew)
    = after (flat_map (fire (VCR.active VCR.StateIdleRew)
                         (withEvent (VCR.msg VCR.Stop) Event.Exit))
               [VCR.StateIdleRew])
        (forget (callAction VCR.parents false 46 (Some VCR.StateIdle)
                   (withEvent (VCR.msg VCR.Stop) Event.Init)
                   (setState (setTarget (VCR.active VCR.StateIdleRew) tg)
                      (Some VCR.StateIdle)))).
Proof.
  assert (heap_ok (VCR.active VCR.StateIdleRew) = true) as Hok
    by (vm_compute; reflexivity).
  assert (S (length VCR.parents)
          + length (tab (VCR.active VCR.StateIdleRew)) ≤ 46) as Hf
    by (vm_compute; lia).
  assert (path VCR.parents (state (VCR.active VCR.StateIdleRew))
          = [VCR.StateIdleRew] ++ path VCR.parents (Some VCR.StateIdle))
    as Hpath by (vm_compute; reflexivity).
  exact (proj1 (transition_along_branch VCR.parents false eq_refl 46
                  (Some VCR.StateIdle) (VCR.msg VCR.Stop)
                  (VCR.active VCR.StateIdleRew) Hok Hf)
           [VCR.StateIdleRew] Hpath).
Defined.

Lemma add_in_front_witness :
  bindings (linkAll (add [VCR.to VCR.StateOff VCR.Play VCR.StatePlaying]
                       VCR.vcr)) VCR.StateOff
  = rev ((λ i, length (tab VCR.vcr) + i)
           <$> declared [VCR.to VCR.StateOff VCR.Play VCR.StatePlaying]
                 VCR.StateOff)
    ++ bindings (linkAll VCR.vcr) VCR.StateOff.
Proof.
  assert (unlinked VCR.vcr = true) as Hfresh by (vm_compute; reflexivity).
  exact (add_in_front VCR.vcr [VCR.to VCR.StateOff VCR.Play VCR.StatePlaying]
           VCR.StateOff Hfresh eq_refl).
Defined.

